(** * MinPQ: a shallow embedding of [src/min_pq.py]

    The Python class [MinPQ] keeps its keys in a 1-indexed list [pq]
    (slot 0 unused), a live count [n] and an optional comparator.  Every
    method mutates the object in place and may raise; an exception leaves
    behind whatever mutation was done before it.  Methods are therefore
    modelled as actions of a state-and-exception monad over the record
    [MinPQ]; the read-only checks ([_greater], [_is_min_heap_ordered],
    [_is_min_heap]) live in the plain exception monad [result]. *)

From stdpp Require Import base list.
From Stdlib Require Import ZArith Lia Sorted.

Local Open Scope nat_scope.

(** ** Values, exceptions, results *)

(** A slot of [pq] holds Python's [None] or a key; keys are Python ints. *)
Abbreviation value := (option Z).

Inductive exn : Type :=
| ValueError        (* "Priority queue underflow" *)
| AssertionError
| IndexError
| TypeError
| RecursionError
| StopIteration.

Inductive result (A : Type) : Type :=
| Ret (a : A)
| Raise (e : exn).
Arguments Ret {A} a.
Arguments Raise {A} e.

Definition rbind {A B} (r : result A) (k : A -> result B) : result B :=
  match r with
  | Ret a => k a
  | Raise e => Raise e
  end.

Declare Scope res_scope.
Delimit Scope res_scope with res.
Notation "x <- r ;; k" := (rbind r (fun x => k))
  (at level 100, r at next level, right associativity) : res_scope.

(** ** The object and its monad *)

Record MinPQ : Type := mkPQ {
  pq : list value;
  n : nat;
  comparator : option (Z -> Z -> Z)
}.

Definition set_pq (l : list value) (s : MinPQ) : MinPQ :=
  mkPQ l (n s) (comparator s).
Definition set_n (m : nat) (s : MinPQ) : MinPQ :=
  mkPQ (pq s) m (comparator s).

(** An action on [self]: the object after the call, and what the call
    returned or raised. *)
Definition M (A : Type) : Type := MinPQ -> MinPQ * result A.

Definition ret {A} (a : A) : M A := fun s => (s, Ret a).
Definition raise {A} (e : exn) : M A := fun s => (s, Raise e).
Definition bind {A B} (m : M A) (k : A -> M B) : M B :=
  fun s =>
    match m s with
    | (s', Ret a) => k a s'
    | (s', Raise e) => (s', Raise e)
    end.

Declare Scope pq_scope.
Delimit Scope pq_scope with pqm.
Notation "x <- m ;; k" := (bind m (fun x => k))
  (at level 100, m at next level, right associativity) : pq_scope.
Notation "m ;;; k" := (bind m (fun _ => k))
  (at level 100, right associativity) : pq_scope.

(** Lifting of a read-only computation. *)
Definition lift {A} (f : MinPQ -> result A) : M A := fun s => (s, f s).

(** [self.pq[i]] as an expression: out of range raises [IndexError]. *)
Definition slot (l : list value) (i : nat) : result value :=
  match l !! i with
  | Some v => Ret v
  | None => Raise IndexError
  end.

Definition load (i : nat) : M value := lift (fun s => slot (pq s) i).

(** [self.pq[i] = v]: out of range raises [IndexError], the list is not
    extended. *)
Definition store (i : nat) (v : value) : M unit :=
  fun s =>
    if Nat.ltb i (length (pq s))
    then (set_pq (<[i:=v]> (pq s)) s, Ret tt)
    else (s, Raise IndexError).

Definition py_assert (b : bool) : M unit :=
  if b then ret tt else raise AssertionError.

(** ** Queries *)

Definition is_empty (s : MinPQ) : bool := Nat.eqb (n s) 0.

Definition size (s : MinPQ) : nat := n s.

(** [min]: raises [ValueError] on the empty queue, else returns [pq[1]]. *)
Definition min : M value :=
  fun s =>
    if is_empty s then raise ValueError s
    else load 1 s.

(** ** The ordering predicate *)

(** [_greater(i, j)].  Without a comparator the slots are compared with
    Python's [>], which raises [TypeError] on [None].  A comparator is a
    function on keys; applying it to [None] is modelled as [TypeError] as
    well (the test suite's comparator [lambda a, b: b - a] does so). *)
Definition greater (s : MinPQ) (i j : nat) : result bool :=
  (a <- slot (pq s) i ;;
   b <- slot (pq s) j ;;
   match a, b with
   | Some x, Some y =>
       match comparator s with
       | None => Ret (Z.gtb x y)
       | Some c => Ret (Z.gtb (c x y) 0)
       end
   | _, _ => Raise TypeError
   end)%res.

(** ** Heap maintenance *)

(** [_exch(i, j)]: the right-hand side [pq[j], pq[i]] is read first, then
    [pq[i]] and [pq[j]] are assigned in that order. *)
Definition exch (i j : nat) : M unit :=
  (a <- load j ;;
   b <- load i ;;
   store i a ;;;
   store j b)%pqm.

(** [_swim(k)]: the body is [pass]. *)
Definition swim (k : nat) : M unit := ret tt.

(** [_sink(k)]: the body is [pass]. *)
Definition sink (k : nat) : M unit := ret tt.

(** The copy loop of [_resize]: [for i in range(i, i + cnt): temp[i] = src[i]]. *)
Fixpoint copy_slots (src : list value) (i cnt : nat) (temp : list value)
  : result (list value) :=
  match cnt with
  | 0 => Ret temp
  | S c =>
      (v <- slot src i ;;
       if Nat.ltb i (length temp)
       then copy_slots src (S i) c (<[i:=v]> temp)
       else Raise IndexError)%res
  end.

(** [_resize(capacity)]: [temp] is local, so [self.pq] changes only when
    the whole copy succeeded. *)
Definition resize (capacity : nat) : M unit :=
  fun s =>
    if Nat.ltb (n s) capacity then
      match copy_slots (pq s) 1 (n s) (replicate capacity None) with
      | Ret temp => (set_pq temp s, Ret tt)
      | Raise e => (s, Raise e)
      end
    else (s, Raise AssertionError).

(** ** The invariant check *)

(** [_is_min_heap_ordered(k)].  The recursion descends to [2k] and [2k+1]
    and stops when [k > n]; [fuel] bounds the depth, and running out of it
    is the interpreter's [RecursionError]. *)
Fixpoint is_min_heap_ordered (fuel : nat) (s : MinPQ) (k : nat) : result bool :=
  if Nat.ltb (n s) k then Ret true
  else
    match fuel with
    | 0 => Raise RecursionError
    | S f =>
        let left := 2 * k in
        let right := 2 * k + 1 in
        (b1 <- (if Nat.leb left (n s) then greater s k left else Ret false) ;;
         if (b1 : bool) then Ret false
         else
           b2 <- (if Nat.leb right (n s) then greater s k right else Ret false) ;;
           if (b2 : bool) then Ret false
           else
             r1 <- is_min_heap_ordered f s left ;;
             if (r1 : bool) then is_min_heap_ordered f s right else Ret false)%res
    end.

(** A [for i in range(i, i + cnt)] loop that returns [False] from the
    enclosing method as soon as [test i] is false. *)
Fixpoint loop_all (test : nat -> result bool) (i cnt : nat) : result bool :=
  match cnt with
  | 0 => Ret true
  | S c =>
      (b <- test i ;;
       if (b : bool) then loop_all test (S i) c else Ret false)%res
  end.

Definition is_not_None (v : value) : bool :=
  match v with Some _ => true | None => false end.

(** [_is_min_heap()]. *)
Definition is_min_heap (s : MinPQ) : result bool :=
  (live <- loop_all (fun i => v <- slot (pq s) i ;; Ret (is_not_None v)) 1 (n s) ;;
   if negb live then Ret false
   else
     free <- loop_all (fun i => v <- slot (pq s) i ;; Ret (negb (is_not_None v)))
               (n s + 1) (length (pq s) - (n s + 1)) ;;
     if negb free then Ret false
     else
       v0 <- slot (pq s) 0 ;;
       if is_not_None v0 then Ret false
       else is_min_heap_ordered (S (n s)) s 1)%res.

Definition assert_is_min_heap : M unit :=
  (b <- lift is_min_heap ;; py_assert b)%pqm.

(** ** Mutators *)

Definition get_n : M nat := fun s => (s, Ret (n s)).
Definition put_n (m : nat) : M unit := fun s => (set_n m s, Ret tt).
(** [len(self.pq)] *)
Definition get_len : M nat := fun s => (s, Ret (length (pq s))).

(** [insert(x)]. *)
Definition insert (x : value) : M unit :=
  (k <- get_n ;;
   len <- get_len ;;
   (if Z.eqb (Z.of_nat k) (Z.of_nat len - 1)
    then resize (2 * len)
    else ret tt) ;;;
   put_n (k + 1) ;;;
   k <- get_n ;;
   store k x ;;;
   swim k ;;;
   assert_is_min_heap)%pqm.

(** [del_min()]. *)
Definition del_min : M value :=
  (empty <- lift (fun s => Ret (is_empty s)) ;;
   if (empty : bool) then raise ValueError
   else
     min_element <- load 1 ;;
     k <- get_n ;;
     exch 1 k ;;;
     put_n (k - 1) ;;;
     sink 1 ;;;
     k <- get_n ;;
     store (k + 1) None ;;;
     len <- get_len ;;
     (if Nat.ltb 0 k && Z.eqb (Z.of_nat k) ((Z.of_nat len - 1) / 4)
      then resize (len / 2)
      else ret tt) ;;;
     assert_is_min_heap ;;;
     ret min_element)%pqm.

(** ** Construction *)

(** The three call patterns of [__init__]'s first argument. *)
Inductive init_arg : Type :=
| NoArg                      (* [MinPQ()] *)
| Capacity (c : Z)           (* [MinPQ(capacity)] *)
| Keys (keys : list Z).      (* [MinPQ(keys)] *)

(** [for i in range(n): self.pq[i+1] = keys[i]], started at index [i]. *)
Fixpoint fill_keys (keys : list Z) (i : nat) : M unit :=
  match keys with
  | [] => ret tt
  | x :: rest => (store (i + 1) (Some x) ;;; fill_keys rest (S i))%pqm
  end.

(** [for k in range(k, 0, -1): self._sink(k)]. *)
Fixpoint heapify (k : nat) : M unit :=
  match k with
  | 0 => ret tt
  | S k' => (sink (S k') ;;; heapify k')%pqm
  end.

(** [[None] * m] for a Python int [m]: empty when [m <= 0]. *)
Definition nones (m : Z) : list value := replicate (Z.to_nat m) None.

(** [__init__]: a constructor that raises builds no object. *)
Definition init (arg : init_arg) (cmp : option (Z -> Z -> Z)) : result MinPQ :=
  match arg with
  | NoArg => Ret (mkPQ (nones (1 + 1)) 0 cmp)
  | Capacity c => Ret (mkPQ (nones (c + 1)) 0 cmp)
  | Keys keys =>
      let self := mkPQ (nones (Z.of_nat (length keys) + 1)) (length keys) cmp in
      match (fill_keys keys 0 ;;;
             heapify (length keys / 2) ;;;
             assert_is_min_heap)%pqm self with
      | (self', Ret _) => Ret self'
      | (_, Raise e) => Raise e
      end
  end.

(** ** The iterator *)

Record HeapIterator : Type := mkIter { copy : MinPQ }.

(** [for i in range(i, i + cnt): self.copy.insert(pq.pq[i])]: the source
    queue is only read, the copy is the state. *)
Fixpoint copy_inserts (src : list value) (i cnt : nat) : M unit :=
  match cnt with
  | 0 => ret tt
  | S c =>
      (fun cp =>
         match slot src i with
         | Ret v => (insert v ;;; copy_inserts src (S i) c)%pqm cp
         | Raise e => (cp, Raise e)
         end)
  end.

(** [HeapIterator.__init__(pq)], reached through [iter(pq)]. *)
Definition iter (p : MinPQ) : result HeapIterator :=
  (cp <- (match comparator p with
          | None => init (Capacity (Z.of_nat (size p))) None
          | Some c => init (Capacity (Z.of_nat (size p))) (Some c)
          end) ;;
   match copy_inserts (pq p) 1 (n p) cp with
   | (cp', Ret _) => Ret (mkIter cp')
   | (_, Raise e) => Raise e
   end)%res.

(** [HeapIterator.__next__()]. *)
Definition next (it : HeapIterator) : HeapIterator * result value :=
  if is_empty (copy it) then (it, Raise StopIteration)
  else
    let '(cp, r) := del_min (copy it) in (mkIter cp, r).

(** ** Client programs

    A client is a list of calls on one queue.  [run] performs them in
    order and records what each call returned or raised; like a client
    that wraps every call in [try]/[except], it goes on after an
    exception, with the object as the failed call left it. *)

Inductive call : Type :=
| Insert (x : Z)
| DelMin
| Min.

(** [insert] returns Python's [None]. *)
Definition perform (c : call) : M value :=
  match c with
  | Insert x => (insert (Some x) ;;; ret None)%pqm
  | DelMin => del_min
  | Min => min
  end.

Fixpoint run (cs : list call) (s : MinPQ) : MinPQ * list (result value) :=
  match cs with
  | [] => (s, [])
  | c :: rest =>
      let '(s1, r) := perform c s in
      let '(s2, rs) := run rest s1 in
      (s2, r :: rs)
  end.

(** [next] called [k] times on an iterator. *)
Fixpoint drain (k : nat) (it : HeapIterator) : HeapIterator * list (result value) :=
  match k with
  | 0 => (it, [])
  | S k' =>
      let '(it1, r) := next it in
      let '(it2, rs) := drain k' it1 in
      (it2, r :: rs)
  end.

(** The queue of the test suite's [setUp]. *)
Definition empty_pq : MinPQ := mkPQ (nones 2) 0 None.

(** [lambda a, b: b - a] of [test_constructor_with_comparator]. *)
Definition reverse_comparator (a b : Z) : Z := (b - a)%Z.

(** [MinPQ(comparator=reverse_comparator)]. *)
Definition reverse_pq : MinPQ := mkPQ (nones 2) 0 (Some reverse_comparator).

(** A queue with two live keys in a list of length 8, as left by four
    inserts of the key 1 and two extractions. *)
Definition two_of_eight : MinPQ :=
  mkPQ [None; Some 1%Z; Some 1%Z; None; None; None; None; None] 2 None.

(** The same after one extraction only. *)
Definition three_of_eight : MinPQ :=
  mkPQ [None; Some 1%Z; Some 1%Z; Some 1%Z; None; None; None; None] 3 None.

(** [MinPQ(4)] after two inserts of the key 1: two live keys in a list of
    length 5. *)
Definition two_of_five : MinPQ :=
  mkPQ [None; Some 1%Z; Some 1%Z; None; None] 2 None.

(** * Specification vocabulary *)

(** ** Which exceptions a computation may raise *)

(** [only P r]: if [r] is an exception, it is one of [P]. *)
Definition only {A} (P : exn -> Prop) (r : result A) : Prop :=
  match r with
  | Ret _ => True
  | Raise e => P e
  end.

Definition m_only {A} (P : exn -> Prop) (m : M A) : Prop :=
  forall s, only P (snd (m s)).

Definition not_underflow (e : exn) : Prop := e <> ValueError.

(** ** Storage *)

(** The capacity invariant of the data model: slot [n] exists. *)
Definition wf (s : MinPQ) : Prop := n s < length (pq s).

(** The shrink test of [del_min], on the size and list length at the time
    of the test. *)
Definition shrinks (k len : nat) : bool :=
  Nat.ltb 0 k && Z.eqb (Z.of_nat k) ((Z.of_nat len - 1) / 4).

(** ** Counting the calls of a run *)

Fixpoint count_inserts (cs : list call) : nat :=
  match cs with
  | [] => 0
  | Insert _ :: rest => S (count_inserts rest)
  | _ :: rest => count_inserts rest
  end.

(** The [del_min] calls of a run that got past the emptiness test, that
    is, all but those that raised the underflow [ValueError]. *)
Fixpoint count_removals (cs : list call) (rs : list (result value)) : nat :=
  match cs, rs with
  | DelMin :: cs', r :: rs' =>
      match r with
      | Raise ValueError => count_removals cs' rs'
      | _ => S (count_removals cs' rs')
      end
  | _ :: cs', _ :: rs' => count_removals cs' rs'
  | _, _ => 0
  end.

(** The [del_min] calls of a run that returned a key. *)
Fixpoint count_successful (cs : list call) (rs : list (result value)) : nat :=
  match cs, rs with
  | DelMin :: cs', r :: rs' =>
      match r with
      | Ret _ => S (count_successful cs' rs')
      | Raise _ => count_successful cs' rs'
      end
  | _ :: cs', _ :: rs' => count_successful cs' rs'
  | _, _ => 0
  end.

(** ** Heap order *)

(** [pq[i] <= pq[j]] in the active ordering: [_greater(i, j)] is false. *)
Definition not_greater (s : MinPQ) (i j : nat) : Prop :=
  greater s i j = Ret false.

(** The heap-order invariant of the data model. *)
Definition heap_ordered (s : MinPQ) : Prop :=
  forall k, 1 <= k <= n s ->
    (2 * k <= n s -> not_greater s k (2 * k)) /\
    (2 * k + 1 <= n s -> not_greater s k (2 * k + 1)).

(** [checked m]: whenever [m] returns, [_is_min_heap()] holds of the
    object it leaves. *)
Definition checked {A} (m : M A) : Prop :=
  forall s s' a, m s = (s', Ret a) -> is_min_heap s' = Ret true.

(** ** Orderings *)

(** The "is greater" predicate on keys that [_greater] applies. *)
Definition gt_of (cmp : option (Z -> Z -> Z)) (x y : Z) : bool :=
  match cmp with
  | None => Z.gtb x y
  | Some c => Z.gtb (c x y) 0
  end.

(** Two objects with the same list and size whose orderings give the same
    "is greater" answers. *)
Definition agree (s1 s2 : MinPQ) : Prop :=
  pq s1 = pq s2 /\ n s1 = n s2 /\
  forall x y, gt_of (comparator s1) x y = gt_of (comparator s2) x y.

(** [m] cannot tell such objects apart. *)
Definition blind {A} (m : M A) : Prop :=
  forall s1 s2, agree s1 s2 ->
    agree (fst (m s1)) (fst (m s2)) /\ snd (m s1) = snd (m s2).

(** The natural order written as a comparator. *)
Definition natural_comparator (a b : Z) : Z := (a - b)%Z.

(** A comparator reduced to the one bit [_greater] reads off it. *)
Definition sign_only (c : Z -> Z -> Z) (a b : Z) : Z :=
  if Z.gtb (c a b) 0 then 1%Z else 0%Z.

(** ** Keys and validity *)

(** The live keys, slots [1..n] in index order. *)
Definition live (s : MinPQ) : list value := take (n s) (drop 1 (pq s)).

(** The list of [del_min] after the exchange and the clearing of slot [n]. *)
Definition exchanged (l : list value) (k : nat) (root last : value) : list value :=
  <[k:=None]> (<[k:=root]> (<[1:=last]> l)).

(** What [_is_min_heap()] checks: keys in slots [1..n], [None] in slot 0
    and in the slots past [n], and heap order. *)
Definition valid_heap (s : MinPQ) : Prop :=
  (forall j, 1 <= j <= n s -> exists x, pq s !! j = Some (Some x)) /\
  (forall j, n s < j < length (pq s) -> pq s !! j = Some None) /\
  pq s !! 0 = Some None /\
  heap_ordered s.

(** The object [MinPQ(keys)] hands to its closing assertion. *)
Definition keys_pq (keys : list Z) (cmp : option (Z -> Z -> Z)) : MinPQ :=
  mkPQ (None :: map Some keys) (length keys) cmp.

(** Heap order of a key list in the order given: no key is greater than
    the keys at its child positions (0-based [2i + 1] and [2i + 2]). *)
Definition keys_heap_ordered (cmp : option (Z -> Z -> Z)) (keys : list Z) : Prop :=
  forall i c x y, c = 2 * i + 1 \/ c = 2 * i + 2 ->
    keys !! i = Some x -> keys !! c = Some y -> gt_of cmp x y = false.

(** An iterator's copy while it is being filled: the first [i - 1] keys of
    [p] in place, [None] elsewhere, in a list of [n + 1] slots. *)
Definition snapshot_upto (p cp : MinPQ) (i : nat) : Prop :=
  n cp = i - 1 /\ comparator cp = comparator p /\
  length (pq cp) = n p + 1 /\
  forall j, pq cp !! j =
    if Nat.leb 1 j && Nat.leb j (i - 1) then pq p !! j
    else if Nat.ltb j (n p + 1) then Some None else None.

(** [lia] with integer division. *)
Ltac div_lia :=
  zify; rewrite ?Nat2Z.inj_div in *; Z.to_euclidean_division_equations; lia.

(** * Properties *)

(** ** Which exceptions a computation may raise *)

Section Only.
Context {A B : Type} (P : exn -> Prop).

Lemma only_rbind (r : result A) (k : A -> result B) :
  only P r -> (forall a, only P (k a)) -> only P (rbind r k).
Proof. destruct r as [a|e]; simpl; auto. Qed.

Lemma m_only_bind (m : M A) (k : A -> M B) :
  m_only P m -> (forall a, m_only P (k a)) -> m_only P (bind m k).
Proof.
  intros Hm Hk s. unfold bind. specialize (Hm s).
  destruct (m s) as [s' [a|e]]; simpl in *; [apply Hk | exact Hm].
Qed.

Lemma m_only_ret (a : A) : m_only P (ret a).
Proof. intros s. exact I. Qed.

Lemma m_only_lift (f : MinPQ -> result A) :
  (forall s, only P (f s)) -> m_only P (lift f).
Proof. intros H s. apply H. Qed.
End Only.

Lemma only_slot P l i : P IndexError -> only P (slot l i).
Proof. intros H. unfold slot. destruct (l !! i); simpl; auto. Qed.

Lemma only_greater P s i j :
  P IndexError -> P TypeError -> only P (greater s i j).
Proof.
  intros HI HT. unfold greater.
  apply only_rbind; [now apply only_slot|]. intros a.
  apply only_rbind; [now apply only_slot|]. intros b.
  destruct a, b, (comparator s); simpl; auto.
Qed.

Lemma only_is_min_heap_ordered P fuel s k :
  P IndexError -> P TypeError -> P RecursionError ->
  only P (is_min_heap_ordered fuel s k).
Proof.
  intros HI HT HR. revert k.
  induction fuel as [|f IH]; intros k; simpl;
    destruct (Nat.ltb (n s) k); simpl; auto.
  apply only_rbind.
  { destruct (Nat.leb _ _); [now apply only_greater | exact I]. }
  intros [|]; [exact I|].
  apply only_rbind.
  { destruct (Nat.leb _ _); [now apply only_greater | exact I]. }
  intros [|]; [exact I|].
  apply only_rbind; [apply IH|]. intros [|]; [apply IH | exact I].
Qed.

Lemma only_loop_all P test i cnt :
  (forall j, only P (test j)) -> only P (loop_all test i cnt).
Proof.
  intros H. revert i. induction cnt as [|c IH]; intros i; simpl; [exact I|].
  apply only_rbind; [apply H|]. intros [|]; [apply IH | exact I].
Qed.

Lemma only_is_min_heap P s :
  P IndexError -> P TypeError -> P RecursionError -> only P (is_min_heap s).
Proof.
  intros HI HT HR. unfold is_min_heap.
  apply only_rbind.
  { apply only_loop_all. intros j. apply only_rbind; [now apply only_slot|].
    intros v. exact I. }
  intros [|]; cbn [negb]; [|exact I].
  apply only_rbind.
  { apply only_loop_all. intros j. apply only_rbind; [now apply only_slot|].
    intros v. exact I. }
  intros [|]; cbn [negb]; [|exact I].
  apply only_rbind; [now apply only_slot|].
  intros v. destruct (is_not_None v); [exact I|].
  now apply only_is_min_heap_ordered.
Qed.

Lemma only_copy_slots P src i cnt temp :
  P IndexError -> only P (copy_slots src i cnt temp).
Proof.
  intros HI. revert i temp. induction cnt as [|c IH]; intros i temp; simpl; [exact I|].
  apply only_rbind; [now apply only_slot|]. intros v.
  destruct (Nat.ltb _ _); [apply IH | exact HI].
Qed.

Section MOnly.
Variable P : exn -> Prop.
Hypothesis PI : P IndexError.
Hypothesis PT : P TypeError.
Hypothesis PR : P RecursionError.
Hypothesis PA : P AssertionError.

Lemma m_only_load i : m_only P (load i).
Proof. apply m_only_lift. intros s. now apply only_slot. Qed.

Lemma m_only_store i v : m_only P (store i v).
Proof. intros s. unfold store. destruct (Nat.ltb _ _); simpl; auto. Qed.

Lemma m_only_exch i j : m_only P (exch i j).
Proof.
  unfold exch. apply m_only_bind; [apply m_only_load|]. intros a.
  apply m_only_bind; [apply m_only_load|]. intros b.
  apply m_only_bind; [apply m_only_store|]. intros _. apply m_only_store.
Qed.

Lemma m_only_resize c : m_only P (resize c).
Proof.
  intros s. unfold resize. destruct (Nat.ltb _ _); simpl; [|exact PA].
  pose proof (only_copy_slots P (pq s) 1 (n s) (replicate c None) PI) as H.
  destruct (copy_slots _ _ _ _); simpl in *; auto.
Qed.

Lemma m_only_assert_is_min_heap : m_only P assert_is_min_heap.
Proof.
  unfold assert_is_min_heap. apply m_only_bind.
  - apply m_only_lift. intros s. now apply only_is_min_heap.
  - intros [|] s; simpl; auto.
Qed.

Lemma m_only_insert x : m_only P (insert x).
Proof.
  unfold insert.
  apply m_only_bind; [intros s; exact I|]. intros k.
  apply m_only_bind; [intros s; exact I|]. intros len.
  apply m_only_bind.
  { destruct (Z.eqb _ _); [apply m_only_resize | apply m_only_ret]. }
  intros _. apply m_only_bind; [intros s; exact I|]. intros _.
  apply m_only_bind; [intros s; exact I|]. intros k'.
  apply m_only_bind; [apply m_only_store|]. intros _.
  apply m_only_bind; [apply m_only_ret|]. intros _.
  apply m_only_assert_is_min_heap.
Qed.

(** What [del_min] does once the emptiness test has passed. *)
Lemma m_only_del_min_body :
  m_only P
    (min_element <- load 1 ;;
     k <- get_n ;;
     exch 1 k ;;;
     put_n (k - 1) ;;;
     sink 1 ;;;
     k <- get_n ;;
     store (k + 1) None ;;;
     len <- get_len ;;
     (if Nat.ltb 0 k && Z.eqb (Z.of_nat k) ((Z.of_nat len - 1) / 4)
      then resize (len / 2)
      else ret tt) ;;;
     assert_is_min_heap ;;;
     ret min_element)%pqm.
Proof.
  apply m_only_bind; [apply m_only_load|]. intros v.
  apply m_only_bind; [intros s; exact I|]. intros k.
  apply m_only_bind; [apply m_only_exch|]. intros _.
  apply m_only_bind; [intros s; exact I|]. intros _.
  apply m_only_bind; [apply m_only_ret|]. intros _.
  apply m_only_bind; [intros s; exact I|]. intros k'.
  apply m_only_bind; [apply m_only_store|]. intros _.
  apply m_only_bind; [intros s; exact I|]. intros len.
  apply m_only_bind.
  { destruct (_ && _); [apply m_only_resize | apply m_only_ret]. }
  intros _. apply m_only_bind; [apply m_only_assert_is_min_heap|].
  intros _. apply m_only_ret.
Qed.
End MOnly.

(** ** Underflow *)

Lemma del_min_empty s : n s = 0 -> del_min s = (s, Raise ValueError).
Proof.
  intros H. unfold del_min, bind, lift, is_empty. rewrite H. reflexivity.
Qed.

Lemma min_empty s : n s = 0 -> min s = (s, Raise ValueError).
Proof. intros H. unfold min, is_empty. rewrite H. reflexivity. Qed.

Lemma min_nonempty s : n s <> 0 -> min s = (s, slot (pq s) 1).
Proof.
  intros H. unfold min, is_empty.
  destruct (Nat.eqb_spec (n s) 0); [contradiction | reflexivity].
Qed.

Lemma del_min_nonempty_no_underflow s :
  n s <> 0 -> snd (del_min s) <> Raise ValueError.
Proof.
  intros H. unfold del_min. unfold bind at 1. unfold lift, is_empty.
  destruct (Nat.eqb_spec (n s) 0); [contradiction|].
  pose proof (m_only_del_min_body not_underflow) as Hb.
  unfold m_only in Hb. specialize (Hb ltac:(discriminate) ltac:(discriminate)
    ltac:(discriminate) ltac:(discriminate) s).
  intros Heq. rewrite Heq in Hb. simpl in Hb. now apply Hb.
Qed.

(** C3.  [min] and [del_min] raise the underflow [ValueError] exactly when
    the queue is empty ([n = 0]); on an empty queue the caller gets that
    exception and no value, and on a non-empty queue neither call raises
    it. *)
Theorem underflow_iff_empty (s : MinPQ) :
  (snd (min s) = Raise ValueError <-> n s = 0) /\
  (snd (del_min s) = Raise ValueError <-> n s = 0).
Proof.
  split; split.
  - intros H. destruct (Nat.eq_dec (n s) 0) as [E|E]; [exact E|].
    rewrite min_nonempty in H by exact E. simpl in H.
    unfold slot in H. destruct (pq s !! 1); discriminate.
  - intros E. now rewrite min_empty.
  - intros H. destruct (Nat.eq_dec (n s) 0) as [E|E]; [exact E|].
    now apply del_min_nonempty_no_underflow in E.
  - intros E. now rewrite del_min_empty.
Qed.

(** C10.  A call of [min] or [del_min] on an empty queue raises the
    underflow [ValueError] and leaves the object ([pq], [n] and the
    comparator) exactly as it was. *)
Theorem underflow_leaves_state (s : MinPQ) (Hempty : n s = 0) :
  min s = (s, Raise ValueError) /\ del_min s = (s, Raise ValueError).
Proof. split; [now apply min_empty | now apply del_min_empty]. Qed.

Lemma underflow_leaves_state_witness :
  n empty_pq = 0 /\
  min empty_pq = (empty_pq, Raise ValueError) /\
  del_min empty_pq = (empty_pq, Raise ValueError).
Proof. split; [reflexivity | apply (underflow_leaves_state empty_pq); reflexivity]. Defined.

(** ** Storage discipline *)

Lemma bind_ret_eq {A B} (m : M A) (k : A -> M B) s s' a :
  m s = (s', Ret a) -> bind m k s = k a s'.
Proof. intros H. unfold bind. now rewrite H. Qed.

Lemma bind_raise_eq {A B} (m : M A) (k : A -> M B) s s' e :
  m s = (s', Raise e) -> bind m k s = (s', Raise e).
Proof. intros H. unfold bind. now rewrite H. Qed.

Lemma load_ok i s :
  i < length (pq s) -> exists v, pq s !! i = Some v /\ load i s = (s, Ret v).
Proof.
  intros H. destruct (lookup_lt_is_Some_2 (pq s) i H) as [v Hv].
  exists v. split; [exact Hv|]. unfold load, lift, slot. now rewrite Hv.
Qed.

Lemma store_ok i v s :
  i < length (pq s) -> store i v s = (set_pq (<[i:=v]> (pq s)) s, Ret tt).
Proof.
  intros H. unfold store.
  destruct (Nat.ltb_spec i (length (pq s))); [reflexivity | lia].
Qed.

Lemma exch_ok i j s :
  i < length (pq s) -> j < length (pq s) ->
  exists a b,
    pq s !! j = Some a /\ pq s !! i = Some b /\
    exch i j s = (set_pq (<[j:=b]> (<[i:=a]> (pq s))) s, Ret tt).
Proof.
  intros Hi Hj.
  destruct (load_ok j s Hj) as (a & Ha & La).
  destruct (load_ok i s Hi) as (b & Hb & Lb).
  exists a, b. repeat split; try assumption.
  unfold exch.
  rewrite (bind_ret_eq _ _ _ _ _ La), (bind_ret_eq _ _ _ _ _ Lb).
  rewrite (bind_ret_eq _ _ _ _ _ (store_ok i a s Hi)).
  rewrite store_ok by (simpl; now rewrite length_insert).
  reflexivity.
Qed.

Lemma copy_slots_ok src i cnt temp :
  i + cnt <= length src -> i + cnt <= length temp ->
  exists t, copy_slots src i cnt temp = Ret t /\ length t = length temp.
Proof.
  revert i temp. induction cnt as [|c IH]; intros i temp Hs Ht; simpl.
  - now exists temp.
  - destruct (lookup_lt_is_Some_2 src i ltac:(lia)) as [v Hv].
    unfold slot. rewrite Hv. simpl.
    destruct (Nat.ltb_spec i (length temp)); [|lia].
    destruct (IH (S i) (<[i:=v]> temp)) as (t & Et & Lt).
    + lia.
    + rewrite length_insert. lia.
    + exists t. split; [exact Et|]. now rewrite Lt, length_insert.
Qed.

(** [_resize] succeeds when the new capacity exceeds [n], and then the
    list has exactly that capacity. *)
Lemma resize_ok c s :
  n s < c -> wf s ->
  exists t, resize c s = (set_pq t s, Ret tt) /\ length t = c.
Proof.
  intros Hc Hw. unfold resize.
  destruct (Nat.ltb_spec (n s) c); [|lia].
  destruct (copy_slots_ok (pq s) 1 (n s) (replicate c None)) as (t & Et & Lt).
  - unfold wf in Hw. lia.
  - rewrite length_replicate. lia.
  - exists t. rewrite Et. split; [reflexivity|].
    now rewrite Lt, length_replicate.
Qed.

(** The closing assertion never touches the object. *)
Lemma assert_is_min_heap_state s : fst (assert_is_min_heap s) = s.
Proof.
  unfold assert_is_min_heap, bind, lift.
  destruct (is_min_heap s) as [[|]|e]; reflexivity.
Qed.

Lemma bind_assert_state {B} (k : unit -> M B) s :
  (forall u s', fst (k u s') = s') ->
  fst (bind assert_is_min_heap k s) = s.
Proof.
  intros Hk. unfold bind.
  pose proof (assert_is_min_heap_state s) as H.
  destruct (assert_is_min_heap s) as [s' [u|e]]; simpl in *; subst.
  - apply Hk.
  - reflexivity.
Qed.

(** [del_min] on a non-empty well-formed queue, up to its closing
    assertion: the key of slot 1 is kept for the return, [n] is one less,
    and the list has half its length (rounded down) exactly when the
    shrink test fired. *)
Lemma del_min_eq s :
  0 < n s -> wf s ->
  exists v l,
    pq s !! 1 = Some v /\
    length l =
      (if shrinks (n s - 1) (length (pq s)) then length (pq s) / 2
       else length (pq s)) /\
    del_min s =
      (assert_is_min_heap ;;; ret v)%pqm (mkPQ l (n s - 1) (comparator s)).
Proof.
  intros Hn Hw. unfold wf in Hw. unfold del_min.
  unfold bind at 1. unfold lift, is_empty.
  destruct (Nat.eqb_spec (n s) 0); [lia|].
  destruct (load_ok 1 s ltac:(lia)) as (v & Hv & Lv).
  rewrite (bind_ret_eq _ _ _ _ _ Lv).
  unfold bind at 1. unfold get_n.
  destruct (exch_ok 1 (n s) s ltac:(lia) ltac:(lia)) as (a & b & _ & _ & Ex).
  rewrite (bind_ret_eq _ _ _ _ _ Ex).
  unfold bind at 1. unfold put_n.
  unfold bind at 1. unfold sink, ret at 1.
  unfold bind at 1. cbn [n set_n set_pq pq comparator].
  set (l1 := <[n s:=b]> (<[1:=a]> (pq s))).
  assert (Hl1 : length l1 = length (pq s)) by (unfold l1; now rewrite !length_insert).
  rewrite (bind_ret_eq _ _ _ _ _
             (store_ok (n s - 1 + 1) None (mkPQ l1 (n s - 1) (comparator s))
                ltac:(cbn [pq]; rewrite Hl1; lia))).
  unfold bind at 1. unfold get_len.
  cbn [n set_n set_pq pq comparator].
  rewrite length_insert, Hl1. fold (shrinks (n s - 1) (length (pq s))).
  set (s3 := mkPQ (<[n s - 1 + 1:=None]> l1) (n s - 1) (comparator s)).
  assert (Hs3 : length (pq s3) = length (pq s))
    by (unfold s3; cbn [pq]; now rewrite length_insert).
  exists v.
  destruct (shrinks (n s - 1) (length (pq s))) eqn:Hsh.
  - unfold shrinks in Hsh. apply andb_prop in Hsh as [H0 Hq].
    apply Nat.ltb_lt in H0. apply Z.eqb_eq in Hq.
    destruct (resize_ok (length (pq s) / 2) s3) as (t & Rt & Lt).
    + unfold s3; cbn [n]. div_lia.
    + unfold wf. rewrite Hs3. unfold s3; cbn [n]. lia.
    + exists t. rewrite (bind_ret_eq _ _ _ _ _ Rt). auto.
  - exists (pq s3). unfold bind at 1. unfold ret at 1. auto.
Qed.

(** The object after [del_min] on a non-empty well-formed queue, whether
    or not the closing assertion holds. *)
Lemma del_min_state s :
  0 < n s -> wf s ->
  let s' := fst (del_min s) in
  n s' = n s - 1 /\
  length (pq s') =
    (if shrinks (n s - 1) (length (pq s)) then length (pq s) / 2
     else length (pq s)) /\
  comparator s' = comparator s.
Proof.
  intros Hn Hw. destruct (del_min_eq s Hn Hw) as (v & l & _ & Hl & ->).
  cbv zeta. rewrite bind_assert_state by reflexivity. cbn. auto.
Qed.

(** [insert] on a well-formed queue, up to its closing assertion: [n] is
    one more, [x] sits in slot [n], and the list was doubled exactly when
    it was full. *)
Lemma insert_eq x s :
  wf s ->
  exists l,
    length l =
      (if Nat.eqb (n s + 1) (length (pq s)) then 2 * length (pq s)
       else length (pq s)) /\
    insert x s =
      assert_is_min_heap (mkPQ (<[n s + 1:=x]> l) (n s + 1) (comparator s)).
Proof.
  intros Hw. unfold wf in Hw. unfold insert.
  unfold bind at 1. unfold get_n.
  unfold bind at 1. unfold get_len.
  destruct (Z.eqb_spec (Z.of_nat (n s)) (Z.of_nat (length (pq s)) - 1)) as [Hfull|Hfull].
  - destruct (Nat.eqb_spec (n s + 1) (length (pq s))); [|lia].
    destruct (resize_ok (2 * length (pq s)) s ltac:(lia) Hw) as (t & Rt & Lt).
    exists t. split; [exact Lt|].
    rewrite (bind_ret_eq _ _ _ _ _ Rt).
    unfold bind at 1. unfold put_n.
    unfold bind at 1. cbn [n set_n set_pq pq comparator].
    rewrite (bind_ret_eq _ _ _ _ _
               (store_ok (n s + 1) x (mkPQ t (n s + 1) (comparator s))
                  ltac:(cbn [pq]; lia))).
    unfold bind at 1. unfold swim, ret. reflexivity.
  - destruct (Nat.eqb_spec (n s + 1) (length (pq s))); [lia|].
    exists (pq s). split; [reflexivity|].
    unfold bind at 1. unfold ret at 1.
    unfold bind at 1. unfold put_n.
    unfold bind at 1. cbn [n set_n set_pq pq comparator].
    rewrite (bind_ret_eq _ _ _ _ _
               (store_ok (n s + 1) x (mkPQ (pq s) (n s + 1) (comparator s))
                  ltac:(cbn [pq]; lia))).
    unfold bind at 1. unfold swim, ret. reflexivity.
Qed.

(** The object after [insert] on a well-formed queue, whether or not the
    closing assertion holds. *)
Lemma insert_state x s :
  wf s ->
  let s' := fst (insert x s) in
  n s' = n s + 1 /\
  length (pq s') =
    (if Nat.eqb (n s + 1) (length (pq s)) then 2 * length (pq s)
     else length (pq s)) /\
  comparator s' = comparator s /\
  pq s' !! (n s + 1) = Some x.
Proof.
  intros Hw. destruct (insert_eq x s Hw) as (l & Hl & ->).
  cbv zeta. rewrite assert_is_min_heap_state. cbn.
  rewrite length_insert. repeat split; try assumption.
  apply list_lookup_insert_eq. rewrite Hl. unfold wf in Hw.
  destruct (Nat.eqb_spec (n s + 1) (length (pq s))); lia.
Qed.

Lemma insert_wf x s : wf s -> wf (fst (insert x s)).
Proof.
  intros Hw. destruct (insert_state x s Hw) as (Hn & Hl & _).
  unfold wf in *. rewrite Hn, Hl.
  destruct (Nat.eqb_spec (n s + 1) (length (pq s))); lia.
Qed.

Lemma del_min_wf s : wf s -> wf (fst (del_min s)).
Proof.
  intros Hw. destruct (Nat.eq_dec (n s) 0) as [E|E].
  - now rewrite del_min_empty.
  - destruct (del_min_state s ltac:(lia) Hw) as (Hn & Hl & _).
    unfold wf in *. rewrite Hn, Hl.
    destruct (shrinks _ _) eqn:Hsh; [|lia].
    unfold shrinks in Hsh. apply andb_prop in Hsh as [H0 Hq].
    apply Nat.ltb_lt in H0. apply Z.eqb_eq in Hq. div_lia.
Qed.

Lemma min_state s : fst (min s) = s.
Proof. unfold min, raise, load, lift. now destruct (is_empty s). Qed.

Lemma perform_wf c s : wf s -> wf (fst (perform c s)).
Proof.
  intros Hw. destruct c as [x| |]; simpl.
  - unfold bind. pose proof (insert_wf (Some x) s Hw) as H.
    destruct (insert (Some x) s) as [s' [u|e]]; exact H.
  - now apply del_min_wf.
  - now rewrite min_state.
Qed.

(** Queues built by the constructor with a non-negative capacity (or with
    none) are well formed. *)
Lemma init_capacity_wf c cmp s :
  (0 <= c)%Z -> init (Capacity c) cmp = Ret s -> wf s.
Proof.
  intros Hc [= <-]. unfold wf, nones. cbn. rewrite length_replicate. lia.
Qed.

Lemma empty_pq_wf : wf empty_pq.
Proof. unfold wf. vm_compute. lia. Qed.

(** ** Size accounting *)

(** What the code guarantees about [size()]: every [insert] adds one and
    every [del_min] that does not underflow takes one away, also when the
    call then fails its closing assertion. *)
Lemma run_size cs : forall s,
  wf s ->
  size (fst (run cs s)) + count_removals cs (snd (run cs s))
  = size s + count_inserts cs.
Proof.
  unfold size. induction cs as [|c rest IH]; intros s Hw; simpl; [lia|].
  pose proof (perform_wf c s Hw) as Hw1.
  destruct (perform c s) as [s1 r] eqn:Ep. simpl in Hw1.
  specialize (IH s1 Hw1). destruct (run rest s1) as [s2 rs]. simpl in *.
  destruct c as [x| |]; simpl in Ep.
  - unfold bind in Ep. pose proof (insert_state (Some x) s Hw) as (Hn & _).
    destruct (insert (Some x) s) as [s' [u|e]]; simpl in Hn;
      injection Ep as <- <-; lia.
  - destruct (Nat.eq_dec (n s) 0) as [E|E].
    + rewrite del_min_empty in Ep by exact E. injection Ep as <- <-. lia.
    + pose proof (del_min_state s ltac:(lia) Hw) as (Hn & _).
      pose proof (del_min_nonempty_no_underflow s E) as Hne.
      rewrite Ep in Hn, Hne. simpl in Hn, Hne.
      destruct r as [v|[]]; try lia. congruence.
  - pose proof (min_state s) as Hs. rewrite Ep in Hs. simpl in Hs. subst s1. lia.
Qed.

(** From the queue of [MinPQ()]. *)
Lemma run_size_from_empty cs :
  size (fst (run cs empty_pq)) + count_removals cs (snd (run cs empty_pq))
  = count_inserts cs.
Proof. now rewrite (run_size cs empty_pq empty_pq_wf). Qed.

Lemma is_empty_iff_size_0 s : is_empty s = true <-> size s = 0.
Proof. unfold is_empty, size. apply Nat.eqb_eq. Qed.

(** ** The heap-order invariant and the closing assertion *)

Lemma rbind_ret_inv {A B} (r : result A) (k : A -> result B) b :
  rbind r k = Ret b -> exists a, r = Ret a /\ k a = Ret b.
Proof. destruct r as [a|e]; simpl; [eauto | discriminate]. Qed.

(** One level of the recursive check. *)
Lemma is_min_heap_ordered_step fuel s k :
  k <= n s ->
  is_min_heap_ordered fuel s k = Ret true ->
  (2 * k <= n s -> not_greater s k (2 * k)) /\
  (2 * k + 1 <= n s -> not_greater s k (2 * k + 1)) /\
  exists f,
    is_min_heap_ordered f s (2 * k) = Ret true /\
    is_min_heap_ordered f s (2 * k + 1) = Ret true.
Proof.
  intros Hk H. destruct fuel as [|f]; simpl in H;
    (destruct (Nat.ltb_spec (n s) k); [lia|]); [discriminate|].
  apply rbind_ret_inv in H as (b1 & H1 & H).
  destruct b1; [discriminate|].
  apply rbind_ret_inv in H as (b2 & H2 & H).
  destruct b2; [discriminate|].
  apply rbind_ret_inv in H as (r1 & Hl & Hr).
  destruct r1; [|discriminate].
  replace (k + (k + 0)) with (2 * k) in * by lia.
  repeat split.
  - intros Hle. destruct (Nat.leb_spec (2 * k) (n s)); [exact H1 | lia].
  - intros Hle. destruct (Nat.leb_spec (2 * k + 1) (n s)); [exact H2 | lia].
  - exists f. split; assumption.
Qed.

(** A check that passed at the root passed at every live index. *)
Lemma is_min_heap_ordered_everywhere fuel s :
  is_min_heap_ordered fuel s 1 = Ret true ->
  forall k, 1 <= k <= n s -> exists f, is_min_heap_ordered f s k = Ret true.
Proof.
  intros Hroot k. induction k as [k IH] using lt_wf_ind. intros Hk.
  destruct (Nat.eq_dec k 1) as [->|Hne]; [now exists fuel|].
  assert (Hh : 1 <= k / 2 <= n s /\ k / 2 < k /\
               (k = 2 * (k / 2) \/ k = 2 * (k / 2) + 1)) by div_lia.
  destruct Hh as (Hr & Hlt & Hpar).
  destruct (IH (k / 2) Hlt Hr) as [f Hf].
  apply is_min_heap_ordered_step in Hf as (_ & _ & f' & Hl & Hrt); [|lia].
  exists f'. destruct Hpar as [E|E]; rewrite E; assumption.
Qed.

Lemma is_min_heap_ordered_sound fuel s :
  is_min_heap_ordered fuel s 1 = Ret true -> heap_ordered s.
Proof.
  intros Hroot k Hk.
  destruct (is_min_heap_ordered_everywhere fuel s Hroot k Hk) as [f Hf].
  apply is_min_heap_ordered_step in Hf as (H1 & H2 & _); [auto | lia].
Qed.

Lemma is_min_heap_sound s : is_min_heap s = Ret true -> heap_ordered s.
Proof.
  unfold is_min_heap. intros H.
  apply rbind_ret_inv in H as (live & _ & H).
  destruct live; cbn [negb] in H; [|discriminate].
  apply rbind_ret_inv in H as (free & _ & H).
  destruct free; cbn [negb] in H; [|discriminate].
  apply rbind_ret_inv in H as (v0 & _ & H).
  destruct (is_not_None v0); [discriminate|].
  now apply is_min_heap_ordered_sound in H.
Qed.

(** The recursion never runs out of fuel from the root: the depth is at
    most [n]. *)
Lemma only_is_min_heap_ordered_fuel P fuel s k :
  P IndexError -> P TypeError ->
  1 <= k -> n s < fuel + k ->
  only P (is_min_heap_ordered fuel s k).
Proof.
  intros HI HT. revert k.
  induction fuel as [|f IH]; intros k Hk Hf; simpl;
    (destruct (Nat.ltb_spec (n s) k); [exact I|]); [lia|].
  apply only_rbind.
  { destruct (Nat.leb _ _); [now apply only_greater | exact I]. }
  intros [|]; [exact I|].
  apply only_rbind.
  { destruct (Nat.leb _ _); [now apply only_greater | exact I]. }
  intros [|]; [exact I|].
  apply only_rbind; [apply IH; lia|]. intros [|]; [apply IH; lia | exact I].
Qed.

Lemma is_min_heap_ordered_fuel s :
  is_min_heap_ordered (S (n s)) s 1 <> Raise RecursionError.
Proof.
  pose proof (only_is_min_heap_ordered_fuel (fun e => e <> RecursionError)
                (S (n s)) s 1 ltac:(discriminate) ltac:(discriminate)
                ltac:(lia) ltac:(lia)) as H.
  intros E. rewrite E in H. now apply H.
Qed.

Lemma checked_bind {A B} (m : M A) (k : A -> M B) :
  (forall a, checked (k a)) -> checked (bind m k).
Proof.
  intros Hk s s' b. unfold bind.
  destruct (m s) as [s1 [a|e]]; [apply Hk | discriminate].
Qed.

Lemma checked_assert : checked assert_is_min_heap.
Proof.
  intros s s' u. unfold assert_is_min_heap, bind, lift.
  destruct (is_min_heap s) as [[|]|e] eqn:E; simpl; try discriminate.
  now intros [= <-].
Qed.

Lemma checked_assert_ret {A} (a : A) :
  checked (bind assert_is_min_heap (fun _ => ret a)).
Proof.
  intros s s' a'. unfold bind.
  destruct (assert_is_min_heap s) as [s1 [u|e]] eqn:E; [|discriminate].
  unfold ret. intros [= <- _]. now apply checked_assert in E.
Qed.

Lemma checked_insert x : checked (insert x).
Proof.
  unfold insert. do 7 (apply checked_bind; intros ?).
  apply checked_assert.
Qed.

Lemma checked_del_min : checked del_min.
Proof.
  unfold del_min. apply checked_bind. intros [|].
  - intros s s' a. discriminate.
  - do 9 (apply checked_bind; intros ?). apply checked_assert_ret.
Qed.

(** Partial correctness of the mutators: a call that returns leaves a
    heap-ordered queue, because the closing assertion raises otherwise. *)
Lemma insert_returns_heap_ordered x s s' u :
  insert x s = (s', Ret u) -> heap_ordered s'.
Proof. intros H. apply is_min_heap_sound. now apply checked_insert in H. Qed.

Lemma del_min_returns_heap_ordered s s' v :
  del_min s = (s', Ret v) -> heap_ordered s'.
Proof. intros H. apply is_min_heap_sound. now apply checked_del_min in H. Qed.

Lemma init_keys_returns_heap_ordered keys cmp s :
  init (Keys keys) cmp = Ret s -> heap_ordered s.
Proof.
  unfold init. intros H. apply is_min_heap_sound.
  match type of H with
  | match ?m ?s0 with _ => _ end = _ => destruct (m s0) as [s1 [u|e]] eqn:E
  end; [|discriminate].
  injection H as <-. revert E. apply checked_bind. intros _.
  apply checked_bind. intros _. apply checked_assert.
Qed.

(** ** The shrink rule of [del_min] *)

(** C7, as amended.  On a non-empty queue whose list has a slot [n],
    [del_min] leaves the list with half its length, rounded down, exactly
    when the new size is positive and equals [(len(pq) - 1) // 4]; in every
    other case the length is unchanged.  The test runs on the size and
    the length as they are after the sink. *)
Theorem del_min_shrink_rule (s : MinPQ)
  (Hn : 0 < n s) (Hslot : n s < length (pq s)) :
  length (pq (fst (del_min s))) =
    if Nat.ltb 0 (n (fst (del_min s))) &&
       Z.eqb (Z.of_nat (n (fst (del_min s))))
             ((Z.of_nat (length (pq s)) - 1) / 4)
    then length (pq s) / 2
    else length (pq s).
Proof.
  destruct (del_min_state s Hn Hslot) as (En & El & _).
  rewrite El, En. reflexivity.
Qed.

Lemma del_min_shrink_rule_witness :
  0 < n two_of_eight /\
  n two_of_eight < length (pq two_of_eight) /\
  length (pq (fst (del_min two_of_eight))) = 4.
Proof.
  assert (H0 : 0 < n two_of_eight) by (vm_compute; lia).
  assert (H1 : n two_of_eight < length (pq two_of_eight)) by (vm_compute; lia).
  split; [exact H0|]. split; [exact H1|].
  exact (del_min_shrink_rule two_of_eight H0 H1).
Defined.

(** C7, as stated, fails.  The queue [two_of_eight] is reached by public
    calls; extracting from it leaves size 1, which is a quarter neither of
    the list length 8 nor of the 7 usable slots, and yet the list is
    halved to length 4.  Extracting from [three_of_eight] leaves size 2,
    exactly a quarter of the list length 8, and the list keeps its
    length.  Extracting from [two_of_five] leaves size 1, exactly a
    quarter of the 4 usable slots, and the list of length 5 shrinks to
    length 2, that is to 1 usable slot, not 2. *)
Lemma del_min_shrink_not_exact_quarter :
  fst (run [Insert 1; Insert 1; Insert 1; Insert 1; DelMin; DelMin] empty_pq)
    = two_of_eight /\
  fst (run [Insert 1; Insert 1; Insert 1; Insert 1; DelMin] empty_pq)
    = three_of_eight /\
  (s <- init (Capacity 4) None ;; Ret (fst (run [Insert 1; Insert 1] s)))%res
    = Ret two_of_five /\
  (n (fst (del_min two_of_eight)) = 1 /\
   4 * n (fst (del_min two_of_eight)) <> length (pq two_of_eight) /\
   4 * n (fst (del_min two_of_eight)) <> length (pq two_of_eight) - 1 /\
   length (pq two_of_eight) = 8 /\
   length (pq (fst (del_min two_of_eight))) = 4) /\
  (n (fst (del_min three_of_eight)) = 2 /\
   4 * n (fst (del_min three_of_eight)) = length (pq three_of_eight) /\
   length (pq (fst (del_min three_of_eight))) = length (pq three_of_eight)) /\
  (n (fst (del_min two_of_five)) = 1 /\
   4 * n (fst (del_min two_of_five)) = length (pq two_of_five) - 1 /\
   length (pq two_of_five) - 1 = 4 /\
   length (pq (fst (del_min two_of_five))) - 1 = 1).
Proof. vm_compute. repeat split; (reflexivity || lia). Qed.

(** ** The comparator *)

Lemma greater_gt_of s i j :
  greater s i j =
    (a <- slot (pq s) i ;;
     b <- slot (pq s) j ;;
     match a, b with
     | Some x, Some y => Ret (gt_of (comparator s) x y)
     | _, _ => Raise TypeError
     end)%res.
Proof.
  unfold greater, gt_of. destruct (slot (pq s) i) as [[x|]|e]; simpl; try reflexivity.
  destruct (slot (pq s) j) as [[y|]|e]; simpl; try reflexivity.
  now destruct (comparator s).
Qed.

Lemma greater_agree s1 s2 i j :
  agree s1 s2 -> greater s1 i j = greater s2 i j.
Proof.
  intros (Hp & _ & Hc). rewrite !greater_gt_of, Hp.
  destruct (slot (pq s2) i) as [[x|]|e]; simpl; try reflexivity.
  destruct (slot (pq s2) j) as [[y|]|e]; simpl; try reflexivity.
  now rewrite Hc.
Qed.

Lemma is_min_heap_ordered_agree fuel s1 s2 k :
  agree s1 s2 -> is_min_heap_ordered fuel s1 k = is_min_heap_ordered fuel s2 k.
Proof.
  intros Ha. pose proof Ha as (_ & Hn & _). revert k.
  induction fuel as [|f IH]; intros k; simpl; rewrite Hn; [reflexivity|].
  rewrite !(greater_agree s1 s2) by exact Ha. now rewrite !IH.
Qed.

Lemma is_min_heap_agree s1 s2 : agree s1 s2 -> is_min_heap s1 = is_min_heap s2.
Proof.
  intros Ha. pose proof Ha as (Hp & Hn & _). unfold is_min_heap.
  rewrite Hp, Hn. now rewrite (is_min_heap_ordered_agree _ s1 s2).
Qed.

Lemma blind_bind {A B} (m : M A) (k : A -> M B) :
  blind m -> (forall a, blind (k a)) -> blind (bind m k).
Proof.
  intros Hm Hk s1 s2 Ha. unfold bind.
  destruct (Hm s1 s2 Ha) as [Hs Hr].
  destruct (m s1) as [t1 r1], (m s2) as [t2 r2]. simpl in *. subst r2.
  destruct r1 as [a|e]; [now apply Hk | auto].
Qed.

Lemma blind_ret {A} (a : A) : blind (ret a).
Proof. intros s1 s2 Ha. auto. Qed.

Lemma blind_raise {A} e : blind (@raise A e).
Proof. intros s1 s2 Ha. auto. Qed.

Lemma blind_lift {A} (f : MinPQ -> result A) :
  (forall s1 s2, agree s1 s2 -> f s1 = f s2) -> blind (lift f).
Proof. intros H s1 s2 Ha. split; [exact Ha | now apply H]. Qed.

Lemma blind_load i : blind (load i).
Proof. apply blind_lift. intros s1 s2 (Hp & _). now rewrite Hp. Qed.

Lemma blind_store i v : blind (store i v).
Proof.
  intros s1 s2 (Hp & Hn & Hc). unfold store. rewrite Hp.
  destruct (Nat.ltb _ _); simpl; unfold agree; simpl; auto.
Qed.

Lemma blind_get_n : blind get_n.
Proof. intros s1 s2 Ha. pose proof Ha as (_ & Hn & _). simpl. now rewrite Hn. Qed.

Lemma blind_get_len : blind get_len.
Proof. intros s1 s2 Ha. pose proof Ha as (Hp & _). simpl. now rewrite Hp. Qed.

Lemma blind_put_n k : blind (put_n k).
Proof. intros s1 s2 (Hp & Hn & Hc). unfold agree. simpl. auto. Qed.

Lemma blind_exch i j : blind (exch i j).
Proof.
  unfold exch. apply blind_bind; [apply blind_load|]. intros a.
  apply blind_bind; [apply blind_load|]. intros b.
  apply blind_bind; [apply blind_store|]. intros _. apply blind_store.
Qed.

Lemma blind_resize c : blind (resize c).
Proof.
  intros s1 s2 (Hp & Hn & Hc). unfold resize. rewrite Hp, Hn.
  destruct (Nat.ltb _ _); [|unfold agree; auto].
  destruct (copy_slots _ _ _ _); unfold agree; simpl; auto.
Qed.

Lemma blind_assert_is_min_heap : blind assert_is_min_heap.
Proof.
  unfold assert_is_min_heap. apply blind_bind.
  - apply blind_lift. apply is_min_heap_agree.
  - intros [|]; [apply blind_ret | apply blind_raise].
Qed.

Lemma blind_insert x : blind (insert x).
Proof.
  unfold insert.
  apply blind_bind; [apply blind_get_n|]. intros k.
  apply blind_bind; [apply blind_get_len|]. intros len.
  apply blind_bind.
  { destruct (Z.eqb _ _); [apply blind_resize | apply blind_ret]. }
  intros _. apply blind_bind; [apply blind_put_n|]. intros _.
  apply blind_bind; [apply blind_get_n|]. intros k'.
  apply blind_bind; [apply blind_store|]. intros _.
  apply blind_bind; [apply blind_ret|]. intros _.
  apply blind_assert_is_min_heap.
Qed.

Lemma blind_del_min : blind del_min.
Proof.
  unfold del_min. apply blind_bind.
  { apply blind_lift. intros s1 s2 (_ & Hn & _). unfold is_empty. now rewrite Hn. }
  intros [|]; [apply blind_raise|].
  apply blind_bind; [apply blind_load|]. intros v.
  apply blind_bind; [apply blind_get_n|]. intros k.
  apply blind_bind; [apply blind_exch|]. intros _.
  apply blind_bind; [apply blind_put_n|]. intros _.
  apply blind_bind; [apply blind_ret|]. intros _.
  apply blind_bind; [apply blind_get_n|]. intros k'.
  apply blind_bind; [apply blind_store|]. intros _.
  apply blind_bind; [apply blind_get_len|]. intros len.
  apply blind_bind.
  { destruct (_ && _); [apply blind_resize | apply blind_ret]. }
  intros _. apply blind_bind; [apply blind_assert_is_min_heap|].
  intros _. apply blind_ret.
Qed.

Lemma blind_min : blind min.
Proof.
  intros s1 s2 Ha. pose proof Ha as (Hp & Hn & _). unfold min, is_empty.
  rewrite Hn. destruct (Nat.eqb _ _); [now apply blind_raise | now apply blind_load].
Qed.

Lemma blind_perform c : blind (perform c).
Proof.
  destruct c as [x| |]; simpl.
  - apply blind_bind; [apply blind_insert | intros _; apply blind_ret].
  - apply blind_del_min.
  - apply blind_min.
Qed.

(** A whole client program returns and raises the same on two objects
    whose orderings agree: the comparator matters only through the answers
    of [_greater]. *)
Lemma run_agree cs : forall s1 s2,
  agree s1 s2 -> snd (run cs s1) = snd (run cs s2).
Proof.
  induction cs as [|c rest IH]; intros s1 s2 Ha; simpl; [reflexivity|].
  destruct (blind_perform c s1 s2 Ha) as [Hs Hr].
  destruct (perform c s1) as [t1 r1], (perform c s2) as [t2 r2]. simpl in *.
  specialize (IH t1 t2 Hs).
  destruct (run rest t1) as [u1 q1], (run rest t2) as [u2 q2]. simpl in *.
  now subst.
Qed.

Lemma init_noarg cmp : init NoArg cmp = Ret (mkPQ (nones 2) 0 cmp).
Proof. reflexivity. Qed.

(** C8.  With the reverse comparator, inserting 3 and then 1 and calling
    [del_min] once returns 3, every call succeeding.  The ordering is
    decided by [_greater] alone, which consults the comparator when there
    is one ([comparator(pq[i], pq[j]) > 0]) and Python's [>] only when
    there is none: a client program cannot tell the natural order from
    the comparator [a - b], nor a comparator from its [> 0] bit, whatever
    the queue it starts from.  Under the natural order the same calls
    differ from the reverse ones, the second insert failing the heap
    check. *)
Theorem comparator_is_honoured :
  init NoArg (Some reverse_comparator) = Ret reverse_pq /\
  snd (run [Insert 3; Insert 1; DelMin] reverse_pq)
    = [Ret None; Ret None; Ret (Some 3%Z)] /\
  (forall (c : Z -> Z -> Z) (x y : Z),
     greater (mkPQ [None; Some x; Some y] 2 (Some c)) 1 2
       = Ret (Z.gtb (c x y) 0)) /\
  (forall (cs : list call) (l : list value) (k : nat),
     snd (run cs (mkPQ l k None))
       = snd (run cs (mkPQ l k (Some natural_comparator)))) /\
  (forall (c : Z -> Z -> Z) (cs : list call) (l : list value) (k : nat),
     snd (run cs (mkPQ l k (Some c)))
       = snd (run cs (mkPQ l k (Some (sign_only c))))) /\
  snd (run [Insert 3; Insert 1] empty_pq) = [Ret None; Raise AssertionError].
Proof.
  split; [reflexivity|]. split; [vm_compute; reflexivity|].
  split; [reflexivity|]. split; [|split].
  - intros cs l k. apply run_agree. repeat split. intros x y.
    unfold gt_of, natural_comparator; cbn [comparator].
    destruct (Z.gtb_spec x y), (Z.gtb_spec (x - y) 0); (reflexivity || lia).
  - intros c cs l k. apply run_agree. repeat split. intros x y.
    unfold gt_of, sign_only; cbn [comparator].
    now destruct (Z.gtb (c x y) 0).
  - vm_compute; reflexivity.
Qed.

(** ** The heap check is total on well-formed queues *)

Lemma loop_all_true test i cnt :
  loop_all test i cnt = Ret true ->
  forall j, i <= j < i + cnt -> test j = Ret true.
Proof.
  revert i. induction cnt as [|c IH]; intros i H j Hj; [lia|].
  simpl in H. apply rbind_ret_inv in H as (b & Hb & H).
  destruct b; [|discriminate].
  destruct (Nat.eq_dec j i) as [->|Hne]; [exact Hb|].
  apply (IH (S i) H). lia.
Qed.

Lemma loop_all_total test i cnt :
  (forall j, i <= j < i + cnt -> exists b, test j = Ret b) ->
  exists b, loop_all test i cnt = Ret b.
Proof.
  revert i. induction cnt as [|c IH]; intros i H; simpl; [eauto|].
  destruct (H i ltac:(lia)) as [b Hb]. rewrite Hb. simpl.
  destruct b; [|eauto]. apply IH. intros j Hj. apply H. lia.
Qed.

Lemma slot_total l i : i < length l -> exists v, slot l i = Ret v.
Proof.
  intros H. unfold slot.
  destruct (lookup_lt_is_Some_2 l i H) as [v ->]. eauto.
Qed.

(** When the first loop of [_is_min_heap] passed, slots [1..n] hold keys. *)
Lemma live_slots_hold_keys s :
  loop_all (fun i => v <- slot (pq s) i ;; Ret (is_not_None v))%res 1 (n s)
    = Ret true ->
  forall j, 1 <= j <= n s -> exists x, pq s !! j = Some (Some x).
Proof.
  intros H j Hj. apply loop_all_true with (j := j) in H; [|lia].
  unfold slot in H. destruct (pq s !! j) as [[x|]|]; simpl in H;
    try discriminate. eauto.
Qed.

Lemma greater_on_keys s i j x y :
  pq s !! i = Some (Some x) -> pq s !! j = Some (Some y) ->
  greater s i j = Ret (gt_of (comparator s) x y).
Proof.
  intros Hi Hj. rewrite greater_gt_of. unfold slot. now rewrite Hi, Hj.
Qed.

(** On live slots the recursive check compares keys only and returns a
    boolean. *)
Lemma is_min_heap_ordered_total fuel s k :
  (forall j, 1 <= j <= n s -> exists x, pq s !! j = Some (Some x)) ->
  1 <= k -> n s < fuel + k ->
  exists b, is_min_heap_ordered fuel s k = Ret b.
Proof.
  intros Hlive. revert k.
  induction fuel as [|f IH]; intros k Hk Hf; simpl;
    (destruct (Nat.ltb_spec (n s) k); [eauto|]); [lia|].
  destruct (Hlive k ltac:(lia)) as [x Hx].
  replace (k + (k + 0)) with (2 * k) by lia.
  assert (G1 : exists b, (if Nat.leb (2 * k) (n s) then greater s k (2 * k)
                          else Ret false) = Ret b).
  { destruct (Nat.leb_spec (2 * k) (n s)); [|eauto].
    destruct (Hlive (2 * k) ltac:(lia)) as [y Hy].
    rewrite (greater_on_keys s k (2 * k) x y Hx Hy). eauto. }
  destruct G1 as [b1 ->]. cbn [rbind]. destruct b1; [eauto|].
  assert (G2 : exists b, (if Nat.leb (2 * k + 1) (n s) then greater s k (2 * k + 1)
                          else Ret false) = Ret b).
  { destruct (Nat.leb_spec (2 * k + 1) (n s)); [|eauto].
    destruct (Hlive (2 * k + 1) ltac:(lia)) as [y Hy].
    rewrite (greater_on_keys s k (2 * k + 1) x y Hx Hy). eauto. }
  destruct G2 as [b2 ->]. cbn [rbind]. destruct b2; [eauto|].
  destruct (IH (2 * k) ltac:(lia) ltac:(lia)) as [r1 ->]. cbn [rbind].
  destruct r1; [|eauto]. apply IH; lia.
Qed.

(** [_is_min_heap()] returns a boolean on every well-formed queue: it
    raises nothing, and in particular never applies the ordering to a
    [None] slot. *)
Lemma is_min_heap_total s : wf s -> exists b, is_min_heap s = Ret b.
Proof.
  intros Hw. unfold wf in Hw. unfold is_min_heap.
  destruct (loop_all_total
              (fun i => v <- slot (pq s) i ;; Ret (is_not_None v))%res 1 (n s))
    as [live Hlive].
  { intros j Hj. destruct (slot_total (pq s) j ltac:(lia)) as [v ->].
    simpl. eauto. }
  rewrite Hlive. cbn [rbind]. destruct live; cbn [negb]; [|eauto].
  destruct (loop_all_total
              (fun i => v <- slot (pq s) i ;; Ret (negb (is_not_None v)))%res
              (n s + 1) (length (pq s) - (n s + 1)))
    as [free Hfree].
  { intros j Hj. destruct (slot_total (pq s) j ltac:(lia)) as [v ->].
    simpl. eauto. }
  rewrite Hfree. cbn [rbind]. destruct free; cbn [negb]; [|eauto].
  destruct (slot_total (pq s) 0 ltac:(lia)) as [v0 ->]. cbn [rbind].
  destruct (is_not_None v0); [eauto|].
  apply is_min_heap_ordered_total; [|lia|lia].
  now apply live_slots_hold_keys.
Qed.

(** On a well-formed queue [insert] returns or raises [AssertionError],
    nothing else. *)
Lemma insert_returns_or_asserts x s :
  wf s ->
  snd (insert x s) = Ret tt \/ snd (insert x s) = Raise AssertionError.
Proof.
  intros Hw. pose proof (insert_wf x s Hw) as Hw'.
  destruct (insert_eq x s Hw) as (l & Hl & E). rewrite E in *.
  rewrite assert_is_min_heap_state in Hw'.
  unfold assert_is_min_heap, bind, lift.
  destruct (is_min_heap_total _ Hw') as [b ->]. destruct b; simpl; auto.
Qed.

(** On a non-empty well-formed queue [del_min] returns the key of slot 1
    or raises [AssertionError], nothing else. *)
Lemma del_min_returns_or_asserts s :
  0 < n s -> wf s ->
  exists v, pq s !! 1 = Some v /\
    (snd (del_min s) = Ret v \/ snd (del_min s) = Raise AssertionError).
Proof.
  intros Hn Hw. pose proof (del_min_wf s Hw) as Hw'.
  destruct (del_min_eq s Hn Hw) as (v & l & Hv & Hl & E). rewrite E in *.
  rewrite bind_assert_state in Hw' by reflexivity.
  exists v. split; [exact Hv|].
  unfold assert_is_min_heap, bind, lift.
  destruct (is_min_heap_total _ Hw') as [b ->]. destruct b; simpl; auto.
Qed.

(** ** Where the stubbed [_swim] and [_sink] show *)

(** Under the natural order, on the queue of [MinPQ()], a second insert
    of a smaller key always fails the heap check: [_swim] leaves the key
    below its larger parent. *)
Lemma insert_out_of_order_raises (x y : Z) :
  (y < x)%Z ->
  snd (run [Insert x; Insert y] empty_pq) = [Ret None; Raise AssertionError].
Proof.
  intros H. cbv -[Z.gtb].
  destruct (Z.gtb_spec x y); [reflexivity | lia].
Qed.

(** C1.  Under the natural order the calls [insert(3)], [insert(1)] do not
    build a heap: the second insert raises [AssertionError] with 3 still
    at the root, and the two extractions that follow return 3 and then 1.
    When the inserts come in ascending order they all succeed, but the
    first [del_min] raises [AssertionError] after it has dropped the
    minimum, and the next ones return 3 and then 2. *)
Theorem extraction_not_ascending :
  snd (run [Insert 3; Insert 1; DelMin; DelMin] empty_pq)
    = [Ret None; Raise AssertionError; Ret (Some 3%Z); Ret (Some 1%Z)] /\
  snd (run [Insert 1; Insert 2; Insert 3; DelMin; DelMin; DelMin] empty_pq)
    = [Ret None; Ret None; Ret None;
       Raise AssertionError; Ret (Some 3%Z); Ret (Some 2%Z)].
Proof. split; vm_compute; reflexivity. Qed.

(** C2.  After [insert(3)], [insert(1)] the object holds 3 above 1, and
    after [insert(1)], [insert(2)], [insert(3)], [del_min()] it holds 3
    above 2: both calls raise [AssertionError] and leave a queue that is
    not heap ordered. *)
Theorem heap_order_broken :
  (let r := run [Insert 3; Insert 1] empty_pq in
   snd r = [Ret None; Raise AssertionError] /\
   pq (fst r) = [None; Some 3%Z; Some 1%Z; None] /\
   n (fst r) = 2 /\
   ~ heap_ordered (fst r)) /\
  (let r := run [Insert 1; Insert 2; Insert 3; DelMin] empty_pq in
   snd r = [Ret None; Ret None; Ret None; Raise AssertionError] /\
   pq (fst r) = [None; Some 3%Z; Some 2%Z; None] /\
   n (fst r) = 2 /\
   ~ heap_ordered (fst r)).
Proof.
  split; cbv zeta; (repeat split; [vm_compute; reflexivity ..|]);
    intros H; destruct (H 1 ltac:(vm_compute; lia)) as [H2 _];
    specialize (H2 ltac:(vm_compute; lia)); vm_compute in H2; discriminate.
Qed.

(** C4.  Three inserts and one [del_min] that fails its closing
    assertion: no extraction succeeded, and [size()] is 2, not 3.
    [is_empty()] agrees with [size() = 0] here as everywhere. *)
Theorem size_after_failed_del_min :
  let cs := [Insert 1; Insert 2; Insert 3; DelMin] in
  let r := run cs empty_pq in
  snd r = [Ret None; Ret None; Ret None; Raise AssertionError] /\
  count_inserts cs = 3 /\
  count_successful cs (snd r) = 0 /\
  size (fst r) = 2 /\
  is_empty (fst r) = false.
Proof. vm_compute. repeat split; reflexivity. Qed.

(** C5.  [MinPQ([4, 2, 5, 1, 3])] raises [AssertionError]: the keys are
    copied in the given order, the sinks change nothing, and the heap
    check finds 4 above 2.  No queue is built to extract from. *)
Theorem init_from_keys_fails :
  init (Keys [4; 2; 5; 1; 3]%Z) None = Raise AssertionError.
Proof. vm_compute. reflexivity. Qed.

(** C6.  On the queue of [test_iterator] (inserts 3, 1, 4, 2, of which the
    last three fail their assertion) [iter] itself raises
    [AssertionError].  On a queue holding the same keys in heap order
    (inserts 1, 2, 3, 4, all succeeding) [iter] succeeds, and five calls of
    [next] give [AssertionError] twice, then 3, then 2, then
    [StopIteration]. *)
Theorem iterator_not_ascending :
  iter (fst (run [Insert 3; Insert 1; Insert 4; Insert 2] empty_pq))
    = Raise AssertionError /\
  snd (run [Insert 1; Insert 2; Insert 3; Insert 4] empty_pq)
    = [Ret None; Ret None; Ret None; Ret None] /\
  (it <- iter (fst (run [Insert 1; Insert 2; Insert 3; Insert 4] empty_pq)) ;;
   Ret (snd (drain 5 it)))%res
    = Ret [Raise AssertionError; Raise AssertionError;
           Ret (Some 3%Z); Ret (Some 2%Z); Raise StopIteration].
Proof. repeat split; vm_compute; reflexivity. Qed.

(** C9.  [insert] and construction from keys do raise: on the queue
    holding 3, [insert(1)] raises [AssertionError], and so does
    [MinPQ([2, 1])]. *)
Theorem insert_and_init_raise :
  snd (insert (Some 1%Z) (fst (insert (Some 3%Z) empty_pq)))
    = Raise AssertionError /\
  snd (insert (Some 3%Z) empty_pq) = Ret tt /\
  init (Keys [2; 1]%Z) None = Raise AssertionError.
Proof. repeat split; vm_compute; reflexivity. Qed.

(** * The operations in detail *)

(** ** Slots after a resize, an insert, an extraction *)

(** What the copy loop leaves: the copied range comes from [src], the rest
    of [temp] is untouched. *)
Lemma copy_slots_lookup src cnt : forall i temp t,
  copy_slots src i cnt temp = Ret t ->
  forall j, t !! j = if Nat.leb i j && Nat.ltb j (i + cnt) then src !! j
                     else temp !! j.
Proof.
  induction cnt as [|c IH]; intros i temp t H j; simpl in H.
  - injection H as <-.
    destruct (Nat.leb_spec i j), (Nat.ltb_spec j (i + 0)); simpl; (reflexivity || lia).
  - unfold slot in H. destruct (src !! i) as [v|] eqn:Hv; [|discriminate].
    simpl in H. destruct (Nat.ltb_spec i (length temp)); [|discriminate].
    rewrite (IH _ _ _ H j).
    destruct (Nat.eq_dec j i) as [->|Hne].
    + rewrite list_lookup_insert_eq by lia. rewrite Hv.
      destruct (Nat.leb_spec (S i) i), (Nat.ltb_spec i (S i + c)),
        (Nat.leb_spec i i), (Nat.ltb_spec i (i + S c)); simpl;
        (reflexivity || lia).
    + rewrite list_lookup_insert_ne by lia.
      destruct (Nat.leb_spec (S i) j), (Nat.ltb_spec j (S i + c)),
        (Nat.leb_spec i j), (Nat.ltb_spec j (i + S c)); simpl;
        (reflexivity || lia).
Qed.

Lemma live_lookup s j :
  live s !! j = if Nat.ltb j (n s) then pq s !! (1 + j) else None.
Proof.
  unfold live. destruct (Nat.ltb_spec j (n s)).
  - rewrite lookup_take_lt by lia. apply lookup_drop.
  - now apply lookup_take_ge.
Qed.

Lemma resize_spec c s :
  n s < c -> wf s ->
  exists t,
    resize c s = (set_pq t s, Ret tt) /\ length t = c /\
    forall j, t !! j =
      if Nat.leb 1 j && Nat.leb j (n s) then pq s !! j
      else if Nat.ltb j c then Some None else None.
Proof.
  intros Hc Hw. unfold resize.
  destruct (Nat.ltb_spec (n s) c); [|lia].
  destruct (copy_slots_ok (pq s) 1 (n s) (replicate c None)) as (t & Et & Lt).
  - unfold wf in Hw. lia.
  - rewrite length_replicate. lia.
  - exists t. rewrite Et. split; [reflexivity|].
    rewrite length_replicate in Lt. split; [exact Lt|].
    intros j. rewrite (copy_slots_lookup _ _ _ _ _ Et j).
    destruct (Nat.leb_spec 1 j), (Nat.ltb_spec j (1 + n s)), (Nat.leb_spec j (n s));
      simpl; try reflexivity; try lia;
      (destruct (Nat.ltb_spec j c);
       [ apply lookup_replicate_2; lia
       | apply lookup_ge_None_2; rewrite length_replicate; lia ]).
Qed.

Lemma insert_slots x s :
  wf s ->
  exists l,
    insert x s =
      assert_is_min_heap (mkPQ (<[n s + 1:=x]> l) (n s + 1) (comparator s)) /\
    n s + 1 < length l /\
    length l = (if Nat.eqb (n s + 1) (length (pq s)) then 2 * length (pq s)
                else length (pq s)) /\
    l !! 0 = (if Nat.eqb (n s + 1) (length (pq s)) then Some None else pq s !! 0) /\
    (forall j, 1 <= j <= n s -> l !! j = pq s !! j) /\
    (forall j, n s + 1 < j ->
       l !! j = if Nat.eqb (n s + 1) (length (pq s))
                then (if Nat.ltb j (2 * length (pq s)) then Some None else None)
                else pq s !! j).
Proof.
  intros Hw. unfold wf in Hw. unfold insert.
  unfold bind at 1. unfold get_n.
  unfold bind at 1. unfold get_len.
  destruct (Z.eqb_spec (Z.of_nat (n s)) (Z.of_nat (length (pq s)) - 1)) as [Hfull|Hfull].
  - destruct (Nat.eqb_spec (n s + 1) (length (pq s))); [|lia].
    destruct (resize_spec (2 * length (pq s)) s ltac:(lia) Hw) as (t & Rt & Lt & Ht).
    exists t. rewrite (bind_ret_eq _ _ _ _ _ Rt).
    unfold bind at 1. unfold put_n.
    unfold bind at 1. cbn [n set_n set_pq pq comparator].
    rewrite (bind_ret_eq _ _ _ _ _
               (store_ok (n s + 1) x (mkPQ t (n s + 1) (comparator s))
                  ltac:(cbn [pq]; lia))).
    unfold bind at 1. unfold swim, ret.
    split; [reflexivity|]. split; [lia|]. split; [exact Lt|]. repeat split.
    + rewrite Ht. change (Nat.leb 1 0) with false. cbn [andb].
      destruct (Nat.ltb_spec 0 (2 * length (pq s))); [reflexivity | lia].
    + intros j Hj. rewrite Ht.
      destruct (Nat.leb_spec 1 j), (Nat.leb_spec j (n s)); simpl; (reflexivity || lia).
    + intros j Hj. rewrite Ht.
      destruct (Nat.leb_spec 1 j), (Nat.leb_spec j (n s)); simpl; (reflexivity || lia).
  - destruct (Nat.eqb_spec (n s + 1) (length (pq s))); [lia|].
    exists (pq s).
    unfold bind at 1. unfold ret at 1.
    unfold bind at 1. unfold put_n.
    unfold bind at 1. cbn [n set_n set_pq pq comparator].
    rewrite (bind_ret_eq _ _ _ _ _
               (store_ok (n s + 1) x (mkPQ (pq s) (n s + 1) (comparator s))
                  ltac:(cbn [pq]; lia))).
    unfold bind at 1. unfold swim, ret.
    split; [reflexivity|]. split; [lia|]. auto.
Qed.

Lemma live_insert_last x l k cmp :
  k + 1 < length l ->
  live (mkPQ (<[k + 1:=x]> l) (k + 1) cmp) = live (mkPQ l k cmp) ++ [x].
Proof.
  intros H. unfold live. cbn [pq n].
  replace (k + 1) with (S k) by lia.
  rewrite (take_S_r _ _ x).
  - f_equal. apply list_eq. intros j.
    destruct (Nat.lt_ge_cases j k).
    + rewrite !lookup_take_lt, !lookup_drop by lia.
      now rewrite list_lookup_insert_ne by lia.
    + now rewrite !lookup_take_ge by lia.
  - rewrite lookup_drop. replace (1 + k) with (S k) by lia.
    apply list_lookup_insert_eq. lia.
Qed.

Lemma live_ext s1 s2 :
  n s1 = n s2 ->
  (forall j, 1 <= j <= n s1 -> pq s1 !! j = pq s2 !! j) ->
  live s1 = live s2.
Proof.
  intros Hn H. apply list_eq. intros j. rewrite !live_lookup, <- Hn.
  destruct (Nat.ltb_spec j (n s1)); [|reflexivity]. apply H. lia.
Qed.

Lemma del_min_slots s :
  0 < n s -> wf s ->
  exists v a l,
    pq s !! 1 = Some v /\ pq s !! n s = Some a /\
    del_min s =
      (assert_is_min_heap ;;; ret v)%pqm (mkPQ l (n s - 1) (comparator s)) /\
    n s - 1 < length l /\
    length l = (if shrinks (n s - 1) (length (pq s)) then length (pq s) / 2
                else length (pq s)) /\
    forall j, l !! j =
      if shrinks (n s - 1) (length (pq s))
      then (if Nat.leb 1 j && Nat.leb j (n s - 1)
            then exchanged (pq s) (n s) v a !! j
            else if Nat.ltb j (length (pq s) / 2) then Some None else None)
      else exchanged (pq s) (n s) v a !! j.
Proof.
  intros Hn Hw. unfold wf in Hw. unfold del_min.
  unfold bind at 1. unfold lift, is_empty.
  destruct (Nat.eqb_spec (n s) 0); [lia|].
  destruct (load_ok 1 s ltac:(lia)) as (v & Hv & Lv).
  rewrite (bind_ret_eq _ _ _ _ _ Lv).
  unfold bind at 1. unfold get_n.
  destruct (exch_ok 1 (n s) s ltac:(lia) ltac:(lia)) as (a & b & Ha & Hb & Ex).
  assert (b = v) by congruence. subst b.
  rewrite (bind_ret_eq _ _ _ _ _ Ex).
  unfold bind at 1. unfold put_n.
  unfold bind at 1. unfold sink, ret at 1.
  unfold bind at 1. cbn [n set_n set_pq pq comparator].
  set (l1 := <[n s:=v]> (<[1:=a]> (pq s))).
  assert (Hl1 : length l1 = length (pq s)) by (unfold l1; now rewrite !length_insert).
  rewrite (bind_ret_eq _ _ _ _ _
             (store_ok (n s - 1 + 1) None (mkPQ l1 (n s - 1) (comparator s))
                ltac:(cbn [pq]; rewrite Hl1; lia))).
  unfold bind at 1. unfold get_len.
  cbn [n set_n set_pq pq comparator].
  rewrite length_insert, Hl1. fold (shrinks (n s - 1) (length (pq s))).
  replace (n s - 1 + 1) with (n s) by lia. fold (exchanged (pq s) (n s) v a).
  set (s3 := mkPQ (exchanged (pq s) (n s) v a) (n s - 1) (comparator s)).
  assert (Hs3 : length (pq s3) = length (pq s))
    by (unfold s3, exchanged; cbn [pq]; now rewrite !length_insert).
  exists v, a.
  destruct (shrinks (n s - 1) (length (pq s))) eqn:Hsh.
  - unfold shrinks in Hsh. apply andb_prop in Hsh as [H0 Hq].
    apply Nat.ltb_lt in H0. apply Z.eqb_eq in Hq.
    destruct (resize_spec (length (pq s) / 2) s3) as (t & Rt & Lt & Ht).
    + unfold s3; cbn [n]. div_lia.
    + unfold wf. rewrite Hs3. unfold s3; cbn [n]. lia.
    + exists t. rewrite (bind_ret_eq _ _ _ _ _ Rt).
      split; [exact Hv|]. split; [exact Ha|]. split; [reflexivity|].
      split; [rewrite Lt; div_lia|]. split; [exact Lt | exact Ht].
  - exists (pq s3). unfold bind at 1. unfold ret at 1.
    split; [exact Hv|]. split; [exact Ha|]. split; [reflexivity|].
    split; [rewrite Hs3; lia|]. split; [exact Hs3 | reflexivity].
Qed.

Lemma exchanged_lookup l k root last j :
  1 <= k < length l ->
  exchanged l k root last !! j =
    if Nat.eqb j k then Some None
    else if Nat.eqb j 1 then Some last
    else l !! j.
Proof.
  intros Hk. unfold exchanged.
  destruct (Nat.eqb_spec j k) as [->|Hjk].
  - apply list_lookup_insert_eq. rewrite !length_insert. lia.
  - rewrite !list_lookup_insert_ne by lia.
    destruct (Nat.eqb_spec j 1) as [->|Hj1].
    + apply list_lookup_insert_eq. lia.
    + now rewrite list_lookup_insert_ne by lia.
Qed.

(** The live keys after [del_min]: the last key has taken the root's
    place, the others stay where they were. *)
Lemma del_min_live s :
  0 < n s -> wf s ->
  exists v a,
    pq s !! 1 = Some v /\ pq s !! n s = Some a /\
    live s = v :: take (n s - 2) (drop 2 (pq s)) ++
               (if Nat.eqb (n s) 1 then [] else [a]) /\
    live (fst (del_min s)) =
      (if Nat.eqb (n s) 1 then []
       else a :: take (n s - 2) (drop 2 (pq s))).
Proof.
  intros Hn Hw. destruct (del_min_slots s Hn Hw) as (v & a & l & Hv & Ha & E & Hl & _ & Hs).
  unfold wf in Hw. exists v, a. split; [exact Hv|]. split; [exact Ha|].
  rewrite E. rewrite bind_assert_state by reflexivity. split.
  - apply list_eq. intros j. rewrite live_lookup.
    destruct j as [|j].
    + simpl. destruct (Nat.ltb_spec 0 (n s)); [exact Hv | lia].
    + rewrite lookup_cons_ne_0 by lia. cbn [pred].
      destruct (Nat.lt_ge_cases j (n s - 2)) as [Hlt|Hge].
      * rewrite lookup_app_l by (rewrite length_take, length_drop; lia).
        rewrite lookup_take_lt, lookup_drop by lia.
        destruct (Nat.ltb_spec (S j) (n s)); [|lia]. f_equal.
      * rewrite lookup_app_r by (rewrite length_take, length_drop; lia).
        rewrite length_take, length_drop.
        replace (Nat.min (n s - 2) (length (pq s) - 2)) with (n s - 2) by lia.
        destruct (Nat.eqb_spec (n s) 1).
        { destruct (Nat.ltb_spec (S j) (n s)); [lia|]. now destruct (j - _). }
        destruct (Nat.ltb_spec (S j) (n s)).
        { replace (j - (n s - 2)) with 0 by lia.
          replace (1 + S j) with (n s) by lia. exact Ha. }
        { destruct (j - (n s - 2)) eqn:Ej; [lia | reflexivity]. }
  - apply list_eq. intros j. rewrite live_lookup. cbn [n pq].
    destruct (Nat.eqb_spec (n s) 1) as [E1|E1].
    { destruct (Nat.ltb_spec j (n s - 1)); [lia | reflexivity]. }
    destruct (Nat.ltb_spec j (n s - 1)) as [Hlt|Hge].
    + assert (Hx : l !! (1 + j) = exchanged (pq s) (n s) v a !! (1 + j)).
      { rewrite Hs. destruct (shrinks _ _); [|reflexivity].
        destruct (Nat.leb_spec 1 (1 + j)), (Nat.leb_spec (1 + j) (n s - 1));
          simpl; (reflexivity || lia). }
      rewrite Hx, exchanged_lookup by lia.
      destruct (Nat.eqb_spec (1 + j) (n s)); [lia|].
      destruct j as [|j]; [reflexivity|].
      cbn [Nat.eqb Nat.add]. rewrite lookup_cons_ne_0 by lia. cbn [pred].
      rewrite lookup_take_lt, lookup_drop by lia. reflexivity.
    + destruct j as [|j]; [lia|].
      rewrite lookup_cons_ne_0 by lia. cbn [pred].
      now rewrite lookup_take_ge by lia.
Qed.

Lemma valid_heap_wf s : valid_heap s -> wf s.
Proof.
  intros (Hlive & _ & H0 & _). unfold wf.
  destruct (Nat.eq_dec (n s) 0) as [E|E].
  - rewrite E. now apply lookup_lt_Some in H0.
  - destruct (Hlive (n s) ltac:(lia)) as [x Hx]. now apply lookup_lt_Some in Hx.
Qed.

Lemma loop_all_complete test i cnt :
  (forall j, i <= j < i + cnt -> test j = Ret true) ->
  loop_all test i cnt = Ret true.
Proof.
  revert i. induction cnt as [|c IH]; intros i H; simpl; [reflexivity|].
  rewrite (H i) by lia. simpl. apply IH. intros j Hj. apply H. lia.
Qed.

Lemma is_min_heap_ordered_complete fuel s k :
  heap_ordered s -> 1 <= k -> n s < fuel + k ->
  is_min_heap_ordered fuel s k = Ret true.
Proof.
  intros Ho. revert k.
  induction fuel as [|f IH]; intros k Hk Hf; simpl;
    (destruct (Nat.ltb_spec (n s) k); [reflexivity|]); [lia|].
  destruct (Ho k ltac:(lia)) as [H1 H2]. unfold not_greater in *.
  replace (k + (k + 0)) with (2 * k) by lia.
  assert (G1 : (if Nat.leb (2 * k) (n s) then greater s k (2 * k)
                else Ret false) = Ret false).
  { destruct (Nat.leb_spec (2 * k) (n s)); [now apply H1 | reflexivity]. }
  assert (G2 : (if Nat.leb (2 * k + 1) (n s) then greater s k (2 * k + 1)
                else Ret false) = Ret false).
  { destruct (Nat.leb_spec (2 * k + 1) (n s)); [now apply H2 | reflexivity]. }
  rewrite G1. cbn [rbind]. rewrite G2. cbn [rbind].
  rewrite (IH (2 * k)) by lia. cbn [rbind]. apply IH; lia.
Qed.

Lemma is_min_heap_valid s : is_min_heap s = Ret true <-> valid_heap s.
Proof.
  unfold is_min_heap. split.
  - intros H.
    apply rbind_ret_inv in H as (live_ok & Hlive & H).
    destruct live_ok; cbn [negb] in H; [|discriminate].
    apply rbind_ret_inv in H as (free_ok & Hfree & H).
    destruct free_ok; cbn [negb] in H; [|discriminate].
    apply rbind_ret_inv in H as (v0 & H0 & H).
    destruct v0 as [x0|]; cbn [is_not_None] in H; [discriminate|].
    split; [|split; [|split]].
    + now apply live_slots_hold_keys.
    + intros j Hj. apply loop_all_true with (j := j) in Hfree; [|lia].
      unfold slot in Hfree. destruct (pq s !! j) as [[x|]|]; simpl in Hfree;
        (discriminate || reflexivity).
    + unfold slot in H0. destruct (pq s !! 0) as [[x|]|]; try discriminate.
      reflexivity.
    + now apply is_min_heap_ordered_sound in H.
  - intros (Hlive & Hfree & H0 & Ho).
    rewrite loop_all_complete.
    2:{ intros j Hj. destruct (Hlive j ltac:(lia)) as [x Hx].
        unfold slot. now rewrite Hx. }
    cbn [rbind negb]. rewrite loop_all_complete.
    2:{ intros j Hj. unfold slot. now rewrite (Hfree j) by lia. }
    cbn [rbind negb]. unfold slot. rewrite H0. cbn [rbind is_not_None].
    apply is_min_heap_ordered_complete; [exact Ho | lia | lia].
Qed.

Lemma greater_ext s1 s2 i j :
  pq s1 !! i = pq s2 !! i -> pq s1 !! j = pq s2 !! j ->
  comparator s1 = comparator s2 ->
  greater s1 i j = greater s2 i j.
Proof.
  intros Hi Hj Hc. unfold greater, slot. now rewrite Hi, Hj, Hc.
Qed.

(** The closing assertion of a mutator passes exactly on valid heaps, and
    fails with [AssertionError] on the other well-formed queues. *)
Lemma assert_is_min_heap_outcome s :
  wf s ->
  (valid_heap s /\ assert_is_min_heap s = (s, Ret tt)) \/
  (~ valid_heap s /\ assert_is_min_heap s = (s, Raise AssertionError)).
Proof.
  intros Hw. unfold assert_is_min_heap, bind, lift.
  destruct (is_min_heap_total s Hw) as [b Hb]. rewrite Hb.
  destruct b; [left | right]; (split; [|reflexivity]).
  - now apply is_min_heap_valid.
  - intros Hv. apply is_min_heap_valid in Hv. congruence.
Qed.

(** The object [insert] hands to its closing assertion, when it starts
    from a valid heap: the new key in slot [n + 1], the old keys where they
    were, [None] everywhere else. *)
Lemma insert_on_valid x s :
  valid_heap s ->
  exists l,
    insert (Some x) s =
      assert_is_min_heap (mkPQ l (n s + 1) (comparator s)) /\
    n s + 1 < length l /\
    length l = (if Nat.eqb (n s + 1) (length (pq s)) then 2 * length (pq s)
                else length (pq s)) /\
    forall j, l !! j =
      if Nat.eqb j (n s + 1) then Some (Some x)
      else if Nat.leb 1 j && Nat.leb j (n s) then pq s !! j
      else if Nat.ltb j (length l) then Some None else None.
Proof.
  intros Hv. pose proof (valid_heap_wf s Hv) as Hw.
  destruct Hv as (_ & Hfree & H0 & _).
  destruct (insert_slots (Some x) s Hw) as (l & E & Hl & Hlen & Hl0 & Hlive & Hrest).
  exists (<[n s + 1:=Some x]> l). split; [exact E|].
  rewrite length_insert. split; [exact Hl|]. split; [exact Hlen|]. intros j.
  destruct (Nat.eqb_spec j (n s + 1)) as [->|Hne].
  { now apply list_lookup_insert_eq. }
  rewrite list_lookup_insert_ne by lia.
  destruct (Nat.leb_spec 1 j), (Nat.leb_spec j (n s)); cbn [andb].
  - apply Hlive. lia.
  - rewrite Hrest by lia. rewrite Hlen.
    destruct (Nat.eqb_spec (n s + 1) (length (pq s))); [reflexivity|].
    destruct (Nat.ltb_spec j (length (pq s))).
    + apply Hfree. lia.
    + now apply lookup_ge_None_2.
  - assert (j = 0) by lia. subst j. rewrite Hl0.
    destruct (Nat.ltb_spec 0 (length l)); [|lia].
    now destruct (Nat.eqb (n s + 1) (length (pq s))).
  - lia.
Qed.

Lemma insert_outcome x s :
  wf s ->
  (valid_heap (fst (insert x s)) /\ snd (insert x s) = Ret tt) \/
  (~ valid_heap (fst (insert x s)) /\ snd (insert x s) = Raise AssertionError).
Proof.
  intros Hw. pose proof (insert_wf x s Hw) as Hw'.
  destruct (insert_eq x s Hw) as (l & _ & E). rewrite E in *.
  rewrite assert_is_min_heap_state in Hw'.
  destruct (assert_is_min_heap_outcome _ Hw') as [[Hv ->]|[Hv ->]]; auto.
Qed.

Lemma heap_ordered_children s :
  heap_ordered s <->
  forall k c, 1 <= k -> c = 2 * k \/ c = 2 * k + 1 -> c <= n s ->
    not_greater s k c.
Proof.
  split.
  - intros H k c Hk Hc Hcn. destruct (H k ltac:(lia)) as [H1 H2].
    destruct Hc as [->| ->]; auto.
  - intros H k Hk. split; intros Hc; apply H; auto; lia.
Qed.

(** A valid heap extended by one key in slot [n + 1] is valid exactly
    when the new key is not smaller than its parent's. *)
Lemma appended_valid x s l :
  valid_heap s ->
  n s + 1 < length l ->
  (forall j, l !! j =
     if Nat.eqb j (n s + 1) then Some (Some x)
     else if Nat.leb 1 j && Nat.leb j (n s) then pq s !! j
     else if Nat.ltb j (length l) then Some None else None) ->
  valid_heap (mkPQ l (n s + 1) (comparator s)) <->
  (n s = 0 \/
   exists p, pq s !! ((n s + 1) / 2) = Some (Some p) /\
             gt_of (comparator s) p x = false).
Proof.
  intros (Hlive & Hfree & H0 & Ho) Hlen Hl.
  set (s' := mkPQ l (n s + 1) (comparator s)).
  assert (Hnew : pq s' !! (n s + 1) = Some (Some x)).
  { cbn [pq s']. rewrite Hl. now rewrite Nat.eqb_refl. }
  assert (Hold : forall j, 1 <= j <= n s -> pq s' !! j = pq s !! j).
  { intros j Hj. cbn [pq s']. rewrite Hl.
    destruct (Nat.eqb_spec j (n s + 1)); [lia|].
    destruct (Nat.leb_spec 1 j), (Nat.leb_spec j (n s)); cbn [andb];
      (reflexivity || lia). }
  split.
  - intros (_ & _ & _ & Ho').
    destruct (Nat.eq_dec (n s) 0) as [E|E]; [now left | right].
    assert (Hk : 1 <= (n s + 1) / 2 <= n s /\
                 (n s + 1 = 2 * ((n s + 1) / 2) \/
                  n s + 1 = 2 * ((n s + 1) / 2) + 1)) by div_lia.
    destruct Hk as [Hk Hc].
    destruct (Hlive _ Hk) as [p Hp]. exists p. split; [exact Hp|].
    apply heap_ordered_children with (k := (n s + 1) / 2) (c := n s + 1) in Ho';
      [|lia|exact Hc|cbn; lia].
    unfold not_greater in Ho'.
    rewrite (greater_on_keys s' _ _ p x) in Ho'; [|rewrite Hold by lia; exact Hp|exact Hnew].
    cbn [comparator s'] in Ho'. congruence.
  - intros Hpar. split; [|split; [|split]].
    + intros j Hj. cbn [n s'] in Hj.
      destruct (Nat.eq_dec j (n s + 1)) as [->|Hne]; [eauto|].
      rewrite Hold by lia. apply Hlive. lia.
    + intros j Hj. cbn [n pq s'] in *. rewrite Hl.
      destruct (Nat.eqb_spec j (n s + 1)); [lia|].
      destruct (Nat.leb_spec 1 j), (Nat.leb_spec j (n s)); cbn [andb]; try lia;
        (destruct (Nat.ltb_spec j (length l)); [reflexivity | lia]).
    + cbn [pq s']. rewrite Hl.
      destruct (Nat.eqb_spec 0 (n s + 1)); [lia|].
      change (Nat.leb 1 0) with false. cbn [andb].
      destruct (Nat.ltb_spec 0 (length l)); [reflexivity | lia].
    + apply heap_ordered_children. intros k c Hk Hc Hcn. cbn [n s'] in Hcn.
      unfold not_greater.
      destruct (Nat.eq_dec c (n s + 1)) as [->|Hne].
      * destruct Hpar as [E|(p & Hp & Hgt)]; [lia|].
        assert (k = (n s + 1) / 2) by div_lia. subst k.
        rewrite (greater_on_keys s' _ _ p x); [|rewrite Hold by div_lia; exact Hp|exact Hnew].
        cbn [comparator s']. now rewrite Hgt.
      * rewrite (greater_ext s' s); [|apply Hold; lia|apply Hold; lia|reflexivity].
        apply (proj1 (heap_ordered_children s) Ho k c); auto. lia.
Qed.

(** Under the natural order the root of a valid heap is a smallest key. *)
Lemma root_is_smallest s r :
  valid_heap s -> comparator s = None ->
  pq s !! 1 = Some (Some r) ->
  forall j x, 1 <= j <= n s -> pq s !! j = Some (Some x) -> (r <= x)%Z.
Proof.
  intros (Hlive & _ & _ & Ho) Hc Hr j.
  induction j as [j IH] using lt_wf_ind. intros x Hj Hx.
  destruct (Nat.eq_dec j 1) as [->|Hne]; [assert (r = x) by congruence; lia|].
  assert (Hk : 1 <= j / 2 <= n s /\ j / 2 < j /\
               (j = 2 * (j / 2) \/ j = 2 * (j / 2) + 1)) by div_lia.
  destruct Hk as (Hk & Hlt & Hpar).
  destruct (Hlive _ Hk) as [p Hp].
  specialize (IH _ Hlt p Hk Hp).
  apply heap_ordered_children with (k := j / 2) (c := j) in Ho; [|lia|exact Hpar|lia].
  unfold not_greater in Ho. rewrite (greater_on_keys s _ _ p x Hp Hx) in Ho.
  rewrite Hc in Ho. cbn [gt_of] in Ho.
  injection Ho as Ho. destruct (Z.gtb_spec p x); [discriminate | lia].
Qed.

Lemma heapify_noop k s : heapify k s = (s, Ret tt).
Proof.
  induction k as [|k IH]; simpl; [reflexivity|].
  unfold bind, sink, ret. exact IH.
Qed.

Lemma fill_keys_spec keys : forall pre rest i k cmp,
  length pre = i + 1 -> length rest = length keys ->
  fill_keys keys i (mkPQ (pre ++ rest) k cmp)
  = (mkPQ (pre ++ map Some keys) k cmp, Ret tt).
Proof.
  induction keys as [|x keys IH]; intros pre rest i k cmp Hpre Hrest.
  - destruct rest; [reflexivity | discriminate].
  - destruct rest as [|r rest]; [discriminate|]. simpl in Hrest.
    cbn [fill_keys map].
    rewrite (bind_ret_eq _ _ _ _ _
               (store_ok (i + 1) (Some x) (mkPQ (pre ++ r :: rest) k cmp)
                  ltac:(cbn [pq]; rewrite length_app; simpl; lia))).
    unfold set_pq. cbn [pq n comparator].
    rewrite insert_app_r_alt by lia.
    replace (i + 1 - length pre) with 0 by lia.
    change (<[0:=Some x]> (r :: rest)) with (Some x :: rest).
    rewrite (cons_middle (Some x) pre rest), (cons_middle (Some x) pre (map Some keys)).
    rewrite !app_assoc.
    apply IH; [rewrite length_app; simpl; lia | lia].
Qed.

Lemma init_keys_eq keys cmp :
  init (Keys keys) cmp =
    match assert_is_min_heap (keys_pq keys cmp) with
    | (s', Ret _) => Ret s'
    | (_, Raise e) => Raise e
    end.
Proof.
  unfold init, nones.
  replace (Z.to_nat (Z.of_nat (length keys) + 1)) with (S (length keys)) by lia.
  cbn [replicate].
  pose proof (fill_keys_spec keys [None] (replicate (length keys) None) 0
                (length keys) cmp eq_refl (length_replicate _ _)) as F.
  cbn [app] in F.
  rewrite (bind_ret_eq _ _ _ _ _ F).
  rewrite (bind_ret_eq _ _ _ _ _ (heapify_noop _ _)). reflexivity.
Qed.

Lemma keys_pq_wf keys cmp : wf (keys_pq keys cmp).
Proof. unfold wf, keys_pq. cbn. rewrite length_map. lia. Qed.

Lemma keys_pq_lookup keys cmp j :
  1 <= j -> pq (keys_pq keys cmp) !! j = Some <$> (keys !! (j - 1)).
Proof.
  intros Hj. unfold keys_pq. cbn [pq].
  rewrite lookup_cons_ne_0 by lia. replace (pred j) with (j - 1) by lia.
  apply list_lookup_fmap.
Qed.

Lemma keys_pq_valid keys cmp :
  valid_heap (keys_pq keys cmp) <-> keys_heap_ordered cmp keys.
Proof.
  split.
  - intros (_ & _ & _ & Ho) i c x y Hc Hx Hy.
    pose proof (lookup_lt_Some _ _ _ Hy) as Hlt.
    apply heap_ordered_children with (k := i + 1) (c := c + 1) in Ho;
      [|lia|lia|cbn; lia].
    unfold not_greater in Ho.
    rewrite (greater_on_keys _ _ _ x y) in Ho.
    + cbn [comparator keys_pq] in Ho. congruence.
    + rewrite keys_pq_lookup by lia. replace (i + 1 - 1) with i by lia.
      now rewrite Hx.
    + rewrite keys_pq_lookup by lia. replace (c + 1 - 1) with c by lia.
      now rewrite Hy.
  - intros Hk. split; [|split; [|split]].
    + intros j Hj. cbn [n keys_pq] in Hj. rewrite keys_pq_lookup by lia.
      destruct (lookup_lt_is_Some_2 keys (j - 1) ltac:(lia)) as [x ->]. eauto.
    + intros j Hj. cbn [n pq keys_pq length] in Hj. rewrite length_map in Hj. lia.
    + reflexivity.
    + apply heap_ordered_children. intros k c Hk1 Hc Hcn. cbn [n keys_pq] in Hcn.
      destruct (lookup_lt_is_Some_2 keys (k - 1) ltac:(lia)) as [x Hx].
      destruct (lookup_lt_is_Some_2 keys (c - 1) ltac:(lia)) as [y Hy].
      unfold not_greater. rewrite (greater_on_keys _ _ _ x y).
      * cbn [comparator keys_pq]. f_equal.
        apply (Hk (k - 1) (c - 1) x y); [lia | exact Hx | exact Hy].
      * rewrite keys_pq_lookup by lia. now rewrite Hx.
      * rewrite keys_pq_lookup by lia. now rewrite Hy.
Qed.

Lemma StronglySorted_lookup_le (l : list Z) :
  StronglySorted Z.le l ->
  forall i j x y, i < j -> l !! i = Some x -> l !! j = Some y -> (x <= y)%Z.
Proof.
  induction 1 as [|a l Hs IH Hall]; intros i j x y Hij Hx Hy; [discriminate|].
  destruct j as [|j]; [lia|]. cbn in Hy.
  destruct i as [|i].
  - cbn in Hx. injection Hx as <-.
    exact (Forall_lookup_1 _ _ _ _ Hall Hy).
  - cbn in Hx. apply (IH i j); (assumption || lia).
Qed.

Lemma sorted_keys_heap_ordered keys :
  StronglySorted Z.le keys -> keys_heap_ordered None keys.
Proof.
  intros Hs i c x y Hc Hx Hy. cbn [gt_of].
  pose proof (StronglySorted_lookup_le keys Hs i c x y ltac:(lia) Hx Hy).
  destruct (Z.gtb_spec x y); [lia | reflexivity].
Qed.

Lemma insert_on_valid_returns x s l :
  valid_heap s ->
  insert (Some x) s = assert_is_min_heap (mkPQ l (n s + 1) (comparator s)) ->
  valid_heap (mkPQ l (n s + 1) (comparator s)) ->
  insert (Some x) s = (mkPQ l (n s + 1) (comparator s), Ret tt).
Proof.
  intros Hv E Hv'. rewrite E.
  destruct (assert_is_min_heap_outcome _ (valid_heap_wf _ Hv')) as [[_ ->]|[Hn _]];
    [reflexivity | contradiction].
Qed.

Lemma snapshot_upto_valid p cp i :
  valid_heap p -> 1 <= i <= n p + 1 -> snapshot_upto p cp i -> valid_heap cp.
Proof.
  intros (Hlive & _ & _ & Ho) Hi (Hn & Hc & Hlen & Hl).
  assert (Hsame : forall j, 1 <= j <= i - 1 -> pq cp !! j = pq p !! j).
  { intros j Hj. rewrite Hl.
    destruct (Nat.leb_spec 1 j), (Nat.leb_spec j (i - 1)); cbn [andb];
      (reflexivity || lia). }
  split; [|split; [|split]].
  - intros j Hj. rewrite Hsame by lia. apply Hlive. lia.
  - intros j Hj. rewrite Hl.
    destruct (Nat.leb_spec 1 j), (Nat.leb_spec j (i - 1)); cbn [andb]; try lia;
      (destruct (Nat.ltb_spec j (n p + 1)); [reflexivity | lia]).
  - rewrite Hl. change (Nat.leb 1 0) with false. cbn [andb].
    destruct (Nat.ltb_spec 0 (n p + 1)); [reflexivity | lia].
  - apply heap_ordered_children. intros k c Hk Hkc Hcn. unfold not_greater.
    rewrite (greater_ext cp p); [|apply Hsame; lia|apply Hsame; lia|exact Hc].
    apply (proj1 (heap_ordered_children p) Ho k c); auto. lia.
Qed.

Lemma copy_inserts_spec p :
  valid_heap p ->
  forall cnt i cp,
    1 <= i -> i + cnt = n p + 1 -> snapshot_upto p cp i ->
    exists cp',
      copy_inserts (pq p) i cnt cp = (cp', Ret tt) /\
      snapshot_upto p cp' (n p + 1).
Proof.
  intros Hp. induction cnt as [|c IH]; intros i cp Hi Hcnt Hinv.
  - exists cp. split; [reflexivity|]. now replace (n p + 1) with i by lia.
  - pose proof (snapshot_upto_valid p cp i Hp ltac:(lia) Hinv) as Hcp.
    destruct Hp as (Hlive & Hrest). destruct (Hlive i ltac:(lia)) as [x Hx].
    cbn [copy_inserts]. unfold slot. rewrite Hx.
    destruct (insert_on_valid x cp Hcp) as (l & E & Hlt & Hlen & Hl).
    destruct Hinv as (Hn & Hc & Hlenp & Hlp).
    assert (Hnext : snapshot_upto p (mkPQ l (n cp + 1) (comparator cp)) (S i)).
    { split; [cbn; lia|]. split; [exact Hc|].
      destruct (Nat.eqb_spec (n cp + 1) (length (pq cp))); [lia|].
      split; [cbn [pq]; lia|]. intros j. cbn [pq]. rewrite Hl, Hlen, Hlenp.
      destruct (Nat.eqb_spec j (n cp + 1)) as [->|Hne].
      - replace (n cp + 1) with i by lia.
        destruct (Nat.leb_spec 1 i), (Nat.leb_spec i (S i - 1)); cbn [andb];
          try lia. now rewrite Hx.
      - rewrite Hlp, Hn.
        destruct (Nat.leb_spec 1 j), (Nat.leb_spec j (i - 1)),
          (Nat.leb_spec j (S i - 1)); cbn [andb]; try lia; reflexivity. }
    pose proof (snapshot_upto_valid p _ (S i) (conj Hlive Hrest) ltac:(lia) Hnext) as Hv1.
    rewrite (bind_ret_eq _ _ _ _ _ (insert_on_valid_returns x cp l Hcp E Hv1)).
    apply (IH (S i)); [lia | lia | exact Hnext].
Qed.

Lemma snapshot_upto_full_live p cp :
  snapshot_upto p cp (n p + 1) -> n cp = n p /\ live cp = live p.
Proof.
  intros (Hn & _ & _ & Hl). split; [lia|].
  apply live_ext; [lia|]. intros j Hj. rewrite Hl.
  destruct (Nat.leb_spec 1 j), (Nat.leb_spec j (n p + 1 - 1)); cbn [andb];
    (reflexivity || lia).
Qed.

(** [del_min] on a valid heap with a single key returns it and leaves a
    valid empty heap. *)
Lemma del_min_last_key s x :
  valid_heap s -> n s = 1 -> pq s !! 1 = Some (Some x) ->
  exists l,
    del_min s = (mkPQ l 0 (comparator s), Ret (Some x)) /\
    valid_heap (mkPQ l 0 (comparator s)).
Proof.
  intros Hv Hn Hx. pose proof (valid_heap_wf s Hv) as Hw.
  destruct Hv as (_ & Hfree & H0 & _). unfold wf in Hw.
  destruct (del_min_slots s ltac:(lia) Hw) as (v & a & l & Hv & Ha & E & Hl & _ & Hs).
  rewrite Hn in *. assert (v = Some x) by congruence. subst v.
  cbn [Nat.sub] in E, Hs, Hl.
  assert (Hsh : shrinks 0 (length (pq s)) = false) by reflexivity.
  rewrite Hsh in Hs.
  assert (Hlook : forall j, l !! j = if Nat.ltb j (length (pq s)) then Some None else None).
  { intros j. rewrite Hs, exchanged_lookup by lia.
    destruct (Nat.eqb_spec j 1) as [->|Hne].
    - destruct (Nat.ltb_spec 1 (length (pq s))); [reflexivity | lia].
    - destruct (Nat.ltb_spec j (length (pq s))).
      + destruct j as [|j]; [exact H0 | apply Hfree; lia].
      + now apply lookup_ge_None_2. }
  assert (Hval : valid_heap (mkPQ l 0 (comparator s))).
  { split; [|split; [|split]].
    - intros j Hj. cbn in Hj. lia.
    - intros j Hj. cbn [pq n] in *. rewrite Hlook.
      pose proof (lookup_lt_is_Some_2 l j ltac:(lia)) as [w Hw'].
      rewrite Hlook in Hw'. destruct (Nat.ltb j (length (pq s))); [reflexivity | discriminate].
    - cbn [pq]. rewrite Hlook.
      destruct (Nat.ltb_spec 0 (length (pq s))); [reflexivity | lia].
    - intros k Hk. cbn in Hk. lia. }
  exists l. split; [|exact Hval]. rewrite E.
  unfold bind.
  destruct (assert_is_min_heap_outcome _ (valid_heap_wf _ Hval)) as [[_ ->]|[Hno _]];
    [reflexivity | contradiction].
Qed.

Lemma insert_into_empty x s :
  valid_heap s -> n s = 0 ->
  exists l,
    insert (Some x) s = (mkPQ l 1 (comparator s), Ret tt) /\
    valid_heap (mkPQ l 1 (comparator s)) /\
    l !! 1 = Some (Some x).
Proof.
  intros Hv Hn.
  destruct (insert_on_valid x s Hv) as (l & E & Hlt & Hlen & Hl).
  pose proof (proj2 (appended_valid x s l Hv Hlt Hl) (or_introl Hn)) as Hv1.
  rewrite Hn in *. cbn [Nat.add] in *.
  exists l. split; [|split; [exact Hv1|]].
  - replace 1 with (n s + 1) by lia. apply insert_on_valid_returns; auto;
      now rewrite Hn.
  - rewrite Hl. reflexivity.
Qed.

Lemma del_min_nonempty_only (P : exn -> Prop) s :
  P IndexError -> P TypeError -> P RecursionError -> P AssertionError ->
  n s <> 0 -> only P (snd (del_min s)).
Proof.
  intros PI PT PR PA H. unfold del_min. unfold bind at 1. unfold lift, is_empty.
  destruct (Nat.eqb_spec (n s) 0); [contradiction|].
  apply (m_only_del_min_body P PI PT PR PA s).
Qed.

Lemma init_capacity_valid c cmp :
  (0 <= c)%Z ->
  valid_heap (mkPQ (nones (c + 1)) 0 cmp) /\
  length (nones (c + 1)) = Z.to_nat c + 1.
Proof.
  intros Hc. unfold nones.
  replace (Z.to_nat (c + 1)) with (Z.to_nat c + 1) by lia.
  split; [|apply length_replicate].
  split; [|split; [|split]].
  - intros j Hj. cbn in Hj. lia.
  - intros j Hj. cbn [pq n] in *. rewrite length_replicate in Hj.
    apply lookup_replicate_2. lia.
  - cbn [pq]. apply lookup_replicate_2. lia.
  - intros k Hk. cbn in Hk. lia.
Qed.

(** What a valid heap looks like after [del_min] took its root away: valid
    exactly when the key moved to the root is not greater than the keys
    of slots 2 and 3 that are still live. *)
Lemma del_min_on_valid s :
  valid_heap s -> 0 < n s ->
  exists r ka l,
    pq s !! 1 = Some (Some r) /\ pq s !! n s = Some (Some ka) /\
    del_min s =
      (assert_is_min_heap ;;; ret (Some r))%pqm
        (mkPQ l (n s - 1) (comparator s)) /\
    (valid_heap (mkPQ l (n s - 1) (comparator s)) <->
     forall c y, c = 2 \/ c = 3 -> c <= n s - 1 ->
       pq s !! c = Some (Some y) -> gt_of (comparator s) ka y = false).
Proof.
  intros Hv Hn. pose proof (valid_heap_wf s Hv) as Hw.
  destruct Hv as (Hlive & Hfree & H0 & Ho). unfold wf in Hw.
  destruct (del_min_slots s Hn Hw) as (v & a & l & Hv & Ha & E & Hlt & Hlen & Hl).
  destruct (Hlive 1 ltac:(lia)) as [r Hr].
  destruct (Hlive (n s) ltac:(lia)) as [ka Hka].
  assert (v = Some r) by congruence. assert (a = Some ka) by congruence.
  subst v a. exists r, ka, l.
  split; [exact Hr|]. split; [exact Hka|]. split; [exact E|].
  set (s' := mkPQ l (n s - 1) (comparator s)).
  assert (Hex : forall j, 1 <= j <= n s - 1 ->
                  pq s' !! j = if Nat.eqb j 1 then Some (Some ka) else pq s !! j).
  { intros j Hj. cbn [pq s']. rewrite Hl.
    assert (Hx : exchanged (pq s) (n s) (Some r) (Some ka) !! j
                 = if Nat.eqb j 1 then Some (Some ka) else pq s !! j).
    { rewrite exchanged_lookup by lia.
      destruct (Nat.eqb_spec j (n s)); [lia | reflexivity]. }
    destruct (shrinks _ _); [|exact Hx].
    destruct (Nat.leb_spec 1 j), (Nat.leb_spec j (n s - 1)); cbn [andb];
      (exact Hx || lia). }
  assert (Hstruct :
    (forall j, 1 <= j <= n s' -> exists x, pq s' !! j = Some (Some x)) /\
    (forall j, n s' < j < length (pq s') -> pq s' !! j = Some None) /\
    pq s' !! 0 = Some None).
  { split; [|split].
    - intros j Hj. cbn [n s'] in Hj. rewrite Hex by lia.
      destruct (Nat.eqb_spec j 1); [eauto | apply Hlive; lia].
    - intros j Hj. cbn [n pq s'] in *. rewrite Hl. rewrite Hlen in Hj.
      destruct (shrinks _ _).
      + destruct (Nat.leb_spec 1 j), (Nat.leb_spec j (n s - 1)); cbn [andb];
          try lia; (destruct (Nat.ltb_spec j (length (pq s) / 2));
                    [reflexivity | lia]).
      + rewrite exchanged_lookup by lia.
        destruct (Nat.eqb_spec j (n s)); [reflexivity|].
        destruct (Nat.eqb_spec j 1); [lia|]. apply Hfree. lia.
    - cbn [pq s']. rewrite Hl. rewrite Hlen in Hlt.
      destruct (shrinks _ _).
      + change (Nat.leb 1 0) with false. cbn [andb].
        destruct (Nat.ltb_spec 0 (length (pq s) / 2)); [reflexivity | lia].
      + rewrite exchanged_lookup by lia.
        destruct (Nat.eqb_spec 0 (n s)); [lia|]. exact H0. }
  split.
  - intros (_ & _ & _ & Ho') c y Hc Hcn Hy.
    apply heap_ordered_children with (k := 1) (c := c) in Ho';
      [|lia|lia|cbn; lia].
    unfold not_greater in Ho'.
    rewrite (greater_on_keys s' 1 c ka y) in Ho'.
    + cbn [comparator s'] in Ho'. congruence.
    + now rewrite Hex by lia.
    + rewrite Hex by lia. destruct (Nat.eqb_spec c 1); [lia | exact Hy].
  - intros Hroot. destruct Hstruct as (H1 & H2 & H3).
    split; [exact H1|]. split; [exact H2|]. split; [exact H3|].
    apply heap_ordered_children. intros k c Hk Hc Hcn. cbn [n s'] in Hcn.
    unfold not_greater.
    destruct (Hlive c ltac:(lia)) as [y Hy].
    assert (Hcy : pq s' !! c = Some (Some y)).
    { rewrite Hex by lia. destruct (Nat.eqb_spec c 1); [lia | exact Hy]. }
    destruct (Nat.eq_dec k 1) as [->|Hne].
    + rewrite (greater_on_keys s' 1 c ka y); [|now rewrite Hex by lia|exact Hcy].
      cbn [comparator s']. f_equal. apply (Hroot c y); (assumption || lia).
    + rewrite (greater_ext s' s); [| |rewrite Hcy; now rewrite Hy|reflexivity].
      * apply (proj1 (heap_ordered_children s) Ho k c); auto. lia.
      * rewrite Hex by lia. now destruct (Nat.eqb_spec k 1).
Qed.

(** ** Storage: what the mutators do to the keys *)

(** X1.  [_resize(capacity)] with a capacity above [n] succeeds on a
    well-formed queue: the new list has exactly that many slots, it holds
    the same keys in the same slots [1..n], every slot past [n] is
    [None], and [n] is unchanged. *)
Theorem resize_keeps_keys (c : nat) (s : MinPQ)
  (Hc : n s < c) (Hw : wf s) :
  snd (resize c s) = Ret tt /\
  length (pq (fst (resize c s))) = c /\
  n (fst (resize c s)) = n s /\
  live (fst (resize c s)) = live s /\
  forall j, n s < j < c -> pq (fst (resize c s)) !! j = Some None.
Proof.
  destruct (resize_spec c s Hc Hw) as (t & -> & Lt & Ht). cbn [fst snd].
  split; [reflexivity|]. split; [exact Lt|]. split; [reflexivity|]. split.
  - apply live_ext; [reflexivity|]. intros j Hj. cbn [set_pq pq n] in *.
    rewrite Ht. destruct (Nat.leb_spec 1 j), (Nat.leb_spec j (n s)); cbn [andb];
      (reflexivity || lia).
  - intros j Hj. cbn [set_pq pq]. rewrite Ht.
    destruct (Nat.leb_spec 1 j), (Nat.leb_spec j (n s)); cbn [andb]; try lia;
      (destruct (Nat.ltb_spec j c); [reflexivity | lia]).
Qed.

Lemma resize_keeps_keys_witness :
  n two_of_eight < 4 /\ wf two_of_eight /\
  snd (resize 4 two_of_eight) = Ret tt /\
  length (pq (fst (resize 4 two_of_eight))) = 4 /\
  n (fst (resize 4 two_of_eight)) = n two_of_eight /\
  live (fst (resize 4 two_of_eight)) = live two_of_eight /\
  forall j, n two_of_eight < j < 4 ->
    pq (fst (resize 4 two_of_eight)) !! j = Some None.
Proof.
  assert (H0 : n two_of_eight < 4) by (vm_compute; lia).
  assert (H1 : wf two_of_eight) by (vm_compute; lia).
  split; [exact H0|]. split; [exact H1|].
  exact (resize_keeps_keys 4 two_of_eight H0 H1).
Defined.

(** X2.  [insert(x)] on a well-formed queue puts [x] behind the keys that
    are there, which keep their slots: the live keys become the old ones
    followed by [x], [n] grows by one and the queue stays well formed,
    whether or not the closing assertion then fails. *)
Theorem insert_appends_key (x : value) (s : MinPQ) (Hw : wf s) :
  live (fst (insert x s)) = live s ++ [x] /\
  n (fst (insert x s)) = n s + 1 /\
  wf (fst (insert x s)).
Proof.
  pose proof (insert_wf x s Hw) as Hw'.
  destruct (insert_slots x s Hw) as (l & E & Hl & _ & _ & Hs & _).
  rewrite E in *. rewrite assert_is_min_heap_state in *.
  split; [|split; [reflexivity | exact Hw']].
  rewrite live_insert_last by exact Hl. f_equal.
  apply live_ext; [reflexivity|]. exact Hs.
Qed.

Lemma insert_appends_key_witness :
  wf two_of_eight /\
  live (fst (insert (Some 0%Z) two_of_eight))
    = live two_of_eight ++ [Some 0%Z] /\
  n (fst (insert (Some 0%Z) two_of_eight)) = n two_of_eight + 1 /\
  wf (fst (insert (Some 0%Z) two_of_eight)).
Proof.
  assert (H1 : wf two_of_eight) by (vm_compute; lia).
  split; [exact H1|]. exact (insert_appends_key (Some 0%Z) two_of_eight H1).
Defined.

(** X3.  On a non-empty well-formed queue [del_min] returns the key of
    slot 1, the one [min] peeks at, or raises [AssertionError]; either
    way that key is the one key removed: it and the live keys left are a
    permutation of the live keys before, and [n] is one less. *)
Theorem del_min_removes_root (s : MinPQ) (Hn : 0 < n s) (Hw : wf s) :
  exists v,
    min s = (s, Ret v) /\
    (snd (del_min s) = Ret v \/ snd (del_min s) = Raise AssertionError) /\
    Permutation (v :: live (fst (del_min s))) (live s) /\
    n (fst (del_min s)) = n s - 1.
Proof.
  destruct (del_min_live s Hn Hw) as (v & a & Hv & Ha & Hbefore & Hafter).
  destruct (del_min_returns_or_asserts s Hn Hw) as (v' & Hv' & Hout).
  assert (v' = v) by congruence. subst v'.
  destruct (del_min_state s Hn Hw) as (Hn' & _).
  exists v. split; [|split; [exact Hout|split; [|exact Hn']]].
  - rewrite min_nonempty by lia. unfold slot. now rewrite Hv.
  - rewrite Hbefore, Hafter. destruct (Nat.eqb_spec (n s) 1) as [E|E].
    + rewrite E. reflexivity.
    + constructor. apply Permutation_cons_append.
Qed.

Lemma del_min_removes_root_witness :
  0 < n two_of_eight /\ wf two_of_eight /\
  exists v,
    min two_of_eight = (two_of_eight, Ret v) /\
    (snd (del_min two_of_eight) = Ret v \/
     snd (del_min two_of_eight) = Raise AssertionError) /\
    Permutation (v :: live (fst (del_min two_of_eight))) (live two_of_eight) /\
    n (fst (del_min two_of_eight)) = n two_of_eight - 1.
Proof.
  assert (H0 : 0 < n two_of_eight) by (vm_compute; lia).
  assert (H1 : wf two_of_eight) by (vm_compute; lia).
  split; [exact H0|]. split; [exact H1|].
  exact (del_min_removes_root two_of_eight H0 H1).
Defined.

(** X4.  After any client program on a well-formed queue, [size()] is the
    size before, plus the [insert] calls, minus the [del_min] calls that
    got past the emptiness test (all but those that raised the underflow
    [ValueError]); and [is_empty()] holds exactly when [size()] is 0. *)
Theorem size_counts_calls (cs : list call) (s : MinPQ) (Hw : wf s) :
  size (fst (run cs s)) + count_removals cs (snd (run cs s))
    = size s + count_inserts cs /\
  (is_empty (fst (run cs s)) = true <-> size (fst (run cs s)) = 0).
Proof. split; [now apply run_size | apply is_empty_iff_size_0]. Qed.

Lemma size_counts_calls_witness :
  wf empty_pq /\
  size (fst (run [Insert 2; Insert 1; DelMin; DelMin; DelMin] empty_pq))
  + count_removals [Insert 2; Insert 1; DelMin; DelMin; DelMin]
      (snd (run [Insert 2; Insert 1; DelMin; DelMin; DelMin] empty_pq))
    = size empty_pq + count_inserts [Insert 2; Insert 1; DelMin; DelMin; DelMin] /\
  (is_empty (fst (run [Insert 2; Insert 1; DelMin; DelMin; DelMin] empty_pq)) = true
   <-> size (fst (run [Insert 2; Insert 1; DelMin; DelMin; DelMin] empty_pq)) = 0).
Proof.
  assert (H : wf empty_pq) by (vm_compute; lia).
  split; [exact H|].
  exact (size_counts_calls [Insert 2; Insert 1; DelMin; DelMin; DelMin] empty_pq H).
Defined.

(** X5.  The capacity invariant [n < len(pq)] survives every client
    program, failed calls included: [insert] doubles a full list before
    it stores, and [del_min] halves the list only to a length above the
    new [n]. *)
Theorem capacity_invariant_kept (cs : list call) (s : MinPQ) (Hw : wf s) :
  wf (fst (run cs s)).
Proof.
  revert s Hw. induction cs as [|c rest IH]; intros s Hw; simpl; [exact Hw|].
  pose proof (perform_wf c s Hw) as Hw1.
  destruct (perform c s) as [s1 r]. simpl in Hw1.
  specialize (IH s1 Hw1). now destruct (run rest s1).
Qed.

Lemma capacity_invariant_kept_witness :
  wf empty_pq /\
  wf (fst (run [Insert 3; Insert 1; Insert 4; DelMin; DelMin] empty_pq)).
Proof.
  assert (H : wf empty_pq) by (vm_compute; lia).
  split; [exact H|].
  exact (capacity_invariant_kept [Insert 3; Insert 1; Insert 4; DelMin; DelMin]
           empty_pq H).
Defined.

(** ** Validity: what the heap check decides, and when the mutators pass it *)

(** X6.  On a well-formed queue [_is_min_heap()] raises nothing and
    decides validity: it returns [True] when slots [1..n] hold keys, slot
    0 and every slot past [n] hold [None] and no key is greater than a
    child's, and [False] otherwise. *)
Theorem heap_check_decides_validity (s : MinPQ) (Hw : wf s) :
  (valid_heap s /\ is_min_heap s = Ret true) \/
  (~ valid_heap s /\ is_min_heap s = Ret false).
Proof.
  destruct (is_min_heap_total s Hw) as [[|] E]; [left | right];
    (split; [|exact E]).
  - now apply is_min_heap_valid.
  - intros Hv. apply is_min_heap_valid in Hv. congruence.
Qed.

Lemma heap_check_decides_validity_witness :
  wf two_of_eight /\
  ((valid_heap two_of_eight /\ is_min_heap two_of_eight = Ret true) \/
   (~ valid_heap two_of_eight /\ is_min_heap two_of_eight = Ret false)).
Proof.
  assert (H : wf two_of_eight) by (vm_compute; lia).
  split; [exact H|]. exact (heap_check_decides_validity two_of_eight H).
Defined.

Lemma two_of_eight_valid : valid_heap two_of_eight.
Proof. apply is_min_heap_valid. vm_compute. reflexivity. Defined.

Lemma empty_pq_valid : valid_heap empty_pq.
Proof. apply is_min_heap_valid. vm_compute. reflexivity. Defined.

(** X7.  On a valid heap [insert(x)] returns exactly when the queue was
    empty or the key in the parent slot [(n + 1) // 2] is not greater than
    [x]; otherwise it raises [AssertionError], and nothing else.  When it
    returns, the queue is a valid heap again. *)
Theorem insert_succeeds_iff_parent_not_greater (x : Z) (s : MinPQ)
  (Hv : valid_heap s) :
  (snd (insert (Some x) s) = Ret tt <->
   (n s = 0 \/
    exists p, pq s !! ((n s + 1) / 2) = Some (Some p) /\
              gt_of (comparator s) p x = false)) /\
  (snd (insert (Some x) s) = Ret tt \/
   snd (insert (Some x) s) = Raise AssertionError) /\
  (snd (insert (Some x) s) = Ret tt -> valid_heap (fst (insert (Some x) s))).
Proof.
  pose proof (valid_heap_wf s Hv) as Hw.
  destruct (insert_on_valid x s Hv) as (l & E & Hlen & _ & Hl).
  pose proof (appended_valid x s l Hv Hlen Hl) as Hiff.
  destruct (insert_outcome (Some x) s Hw) as [[Hval Hr]|[Hval Hr]];
    rewrite E, assert_is_min_heap_state in Hval; rewrite Hr; rewrite E.
  - rewrite assert_is_min_heap_state. split; [|split]; auto.
    split; [intros _; now apply Hiff | reflexivity].
  - split; [|split]; auto; [|discriminate].
    split; [discriminate|]. intros Hp. now apply Hiff in Hp.
Qed.

Lemma insert_succeeds_iff_parent_not_greater_witness :
  valid_heap two_of_eight /\
  (snd (insert (Some 0%Z) two_of_eight) = Ret tt <->
   (n two_of_eight = 0 \/
    exists p, pq two_of_eight !! ((n two_of_eight + 1) / 2) = Some (Some p) /\
              gt_of (comparator two_of_eight) p 0 = false)) /\
  (snd (insert (Some 0%Z) two_of_eight) = Ret tt \/
   snd (insert (Some 0%Z) two_of_eight) = Raise AssertionError) /\
  (snd (insert (Some 0%Z) two_of_eight) = Ret tt ->
   valid_heap (fst (insert (Some 0%Z) two_of_eight))).
Proof.
  split; [exact two_of_eight_valid|].
  exact (insert_succeeds_iff_parent_not_greater 0 two_of_eight two_of_eight_valid).
Defined.

(** X8.  On a non-empty valid heap [del_min()] returns the root key
    exactly when the last key, which it moves to the root, is not
    greater than the keys of slots 2 and 3 that stay live; otherwise it
    raises [AssertionError], and nothing else.  When it returns, the
    queue is a valid heap again. *)
Theorem del_min_succeeds_iff_moved_key_fits (s : MinPQ)
  (Hv : valid_heap s) (Hn : 0 < n s) :
  exists r ka,
    pq s !! 1 = Some (Some r) /\ pq s !! n s = Some (Some ka) /\
    (snd (del_min s) = Ret (Some r) <->
     forall c y, c = 2 \/ c = 3 -> c <= n s - 1 ->
       pq s !! c = Some (Some y) -> gt_of (comparator s) ka y = false) /\
    (snd (del_min s) = Ret (Some r) \/
     snd (del_min s) = Raise AssertionError) /\
    (snd (del_min s) = Ret (Some r) -> valid_heap (fst (del_min s))).
Proof.
  pose proof (valid_heap_wf s Hv) as Hw.
  pose proof (del_min_wf s Hw) as Hw'.
  destruct (del_min_on_valid s Hv Hn) as (r & ka & l & Hr & Hka & E & Hiff).
  exists r, ka. split; [exact Hr|]. split; [exact Hka|].
  rewrite E in *. rewrite bind_assert_state in Hw' by reflexivity.
  unfold bind.
  destruct (assert_is_min_heap_outcome _ Hw') as [[Hval ->]|[Hval ->]];
    cbn [fst snd ret].
  - split; [|split]; auto. split; [intros _; now apply Hiff | reflexivity].
  - split; [|split]; auto; [|discriminate].
    split; [discriminate|]. intros Hp. now apply Hiff in Hp.
Qed.

Lemma del_min_succeeds_iff_moved_key_fits_witness :
  valid_heap two_of_eight /\ 0 < n two_of_eight /\
  exists r ka,
    pq two_of_eight !! 1 = Some (Some r) /\
    pq two_of_eight !! n two_of_eight = Some (Some ka) /\
    (snd (del_min two_of_eight) = Ret (Some r) <->
     forall c y, c = 2 \/ c = 3 -> c <= n two_of_eight - 1 ->
       pq two_of_eight !! c = Some (Some y) ->
       gt_of (comparator two_of_eight) ka y = false) /\
    (snd (del_min two_of_eight) = Ret (Some r) \/
     snd (del_min two_of_eight) = Raise AssertionError) /\
    (snd (del_min two_of_eight) = Ret (Some r) ->
     valid_heap (fst (del_min two_of_eight))).
Proof.
  assert (H0 : 0 < n two_of_eight) by (vm_compute; lia).
  split; [exact two_of_eight_valid|]. split; [exact H0|].
  exact (del_min_succeeds_iff_moved_key_fits two_of_eight two_of_eight_valid H0).
Defined.

(** X9.  Under the natural order, on a non-empty valid heap (one that
    passes [_is_min_heap()]) [min()] returns a smallest key and leaves
    the queue as it is, and [del_min()] returns that same key unless it
    raises [AssertionError]. *)
Theorem min_returns_smallest (s : MinPQ)
  (Hv : valid_heap s) (Hc : comparator s = None) (Hn : 0 < n s) :
  exists r,
    min s = (s, Ret (Some r)) /\
    (forall j x, 1 <= j <= n s -> pq s !! j = Some (Some x) -> (r <= x)%Z) /\
    (snd (del_min s) = Ret (Some r) \/
     snd (del_min s) = Raise AssertionError).
Proof.
  pose proof Hv as (Hlive & _). destruct (Hlive 1 ltac:(lia)) as [r Hr].
  exists r. split; [|split].
  - rewrite min_nonempty by lia. unfold slot. now rewrite Hr.
  - now apply root_is_smallest.
  - destruct (del_min_returns_or_asserts s Hn (valid_heap_wf s Hv))
      as (v & Hv1 & Hout).
    assert (v = Some r) by congruence. now subst v.
Qed.

Lemma min_returns_smallest_witness :
  valid_heap two_of_eight /\ comparator two_of_eight = None /\
  0 < n two_of_eight /\
  exists r,
    min two_of_eight = (two_of_eight, Ret (Some r)) /\
    (forall j x, 1 <= j <= n two_of_eight ->
       pq two_of_eight !! j = Some (Some x) -> (r <= x)%Z) /\
    (snd (del_min two_of_eight) = Ret (Some r) \/
     snd (del_min two_of_eight) = Raise AssertionError).
Proof.
  assert (H0 : 0 < n two_of_eight) by (vm_compute; lia).
  split; [exact two_of_eight_valid|]. split; [reflexivity|]. split; [exact H0|].
  exact (min_returns_smallest two_of_eight two_of_eight_valid eq_refl H0).
Defined.

(** X10.  On an empty valid heap, whatever its capacity and ordering,
    [insert(x)] succeeds, [min()] then returns [x], [del_min()] returns
    [x] and a second [del_min()] raises the underflow [ValueError]; the
    queue ends empty and valid. *)
Theorem single_key_round_trip (x : Z) (s : MinPQ)
  (Hv : valid_heap s) (Hn : n s = 0) :
  snd (run [Insert x; Min; DelMin; DelMin] s)
    = [Ret None; Ret (Some x); Ret (Some x); Raise ValueError] /\
  valid_heap (fst (run [Insert x; Min; DelMin; DelMin] s)) /\
  is_empty (fst (run [Insert x; Min; DelMin; DelMin] s)) = true.
Proof.
  destruct (insert_into_empty x s Hv Hn) as (l1 & E1 & Hv1 & Hx).
  destruct (del_min_last_key _ x Hv1 eq_refl Hx) as (l2 & E2 & Hv2).
  cbn [comparator] in E2, Hv2.
  assert (R : run [Insert x; Min; DelMin; DelMin] s
              = (mkPQ l2 0 (comparator s),
                 [Ret None; Ret (Some x); Ret (Some x); Raise ValueError])).
  { cbn [run perform].
    rewrite (bind_ret_eq _ _ _ _ _ E1). unfold ret at 1.
    rewrite (min_nonempty (mkPQ l1 1 (comparator s))) by (cbn; lia).
    cbn [pq]. unfold slot. rewrite Hx.
    rewrite E2. rewrite del_min_empty by reflexivity. reflexivity. }
  rewrite R. cbn [fst snd]. auto.
Qed.

Lemma single_key_round_trip_witness :
  valid_heap empty_pq /\ n empty_pq = 0 /\
  snd (run [Insert 7; Min; DelMin; DelMin] empty_pq)
    = [Ret None; Ret (Some 7%Z); Ret (Some 7%Z); Raise ValueError] /\
  valid_heap (fst (run [Insert 7; Min; DelMin; DelMin] empty_pq)) /\
  is_empty (fst (run [Insert 7; Min; DelMin; DelMin] empty_pq)) = true.
Proof.
  split; [exact empty_pq_valid|]. split; [reflexivity|].
  exact (single_key_round_trip 7 empty_pq empty_pq_valid eq_refl).
Defined.

(** ** Construction *)

(** X11.  [MinPQ(capacity)] with a capacity of 0 or more builds an empty
    valid heap on a list of [capacity + 1] slots; [MinPQ()] is
    [MinPQ(1)]. *)
Theorem fresh_queue_is_valid (c : Z) (cmp : option (Z -> Z -> Z))
  (Hc : (0 <= c)%Z) :
  exists s,
    init (Capacity c) cmp = Ret s /\
    valid_heap s /\ size s = 0 /\ is_empty s = true /\
    length (pq s) = Z.to_nat c + 1 /\ comparator s = cmp /\
    init NoArg cmp = init (Capacity 1) cmp.
Proof.
  destruct (init_capacity_valid c cmp Hc) as [Hv Hl].
  exists (mkPQ (nones (c + 1)) 0 cmp).
  split; [reflexivity|]. split; [exact Hv|]. split; [reflexivity|].
  split; [reflexivity|]. split; [exact Hl|]. split; reflexivity.
Qed.

Lemma fresh_queue_is_valid_witness :
  (0 <= 5)%Z /\
  exists s,
    init (Capacity 5) None = Ret s /\
    valid_heap s /\ size s = 0 /\ is_empty s = true /\
    length (pq s) = Z.to_nat 5 + 1 /\ comparator s = None /\
    init NoArg None = init (Capacity 1) None.
Proof.
  assert (H : (0 <= 5)%Z) by lia.
  split; [exact H|]. exact (fresh_queue_is_valid 5 None H).
Defined.

(** X12.  [MinPQ(capacity)] with a negative capacity builds a queue on
    the empty list; it counts as empty, but its first [insert] raises
    [IndexError] after it has set [n] to 1. *)
Theorem negative_capacity_insert_raises (c : Z) (cmp : option (Z -> Z -> Z))
  (x : value) (Hc : (c < 0)%Z) :
  init (Capacity c) cmp = Ret (mkPQ [] 0 cmp) /\
  is_empty (mkPQ [] 0 cmp) = true /\
  insert x (mkPQ [] 0 cmp) = (mkPQ [] 1 cmp, Raise IndexError).
Proof.
  split; [|split; reflexivity].
  unfold init, nones. replace (Z.to_nat (c + 1)) with 0 by lia. reflexivity.
Qed.

Lemma negative_capacity_insert_raises_witness :
  (-1 < 0)%Z /\
  init (Capacity (-1)) None = Ret (mkPQ [] 0 None) /\
  is_empty (mkPQ [] 0 None) = true /\
  insert (Some 1%Z) (mkPQ [] 0 None) = (mkPQ [] 1 None, Raise IndexError).
Proof.
  assert (H : (-1 < 0)%Z) by lia.
  split; [exact H|].
  exact (negative_capacity_insert_raises (-1) None (Some 1%Z) H).
Defined.

(** X13.  [MinPQ(keys)] keeps the keys in the order given: it returns the
    queue with [keys[i]] in slot [i + 1] when that order is already a
    heap order (no key greater than the keys at positions [2i + 1] and
    [2i + 2]), and raises [AssertionError] when it is not. *)
Theorem init_from_keys_outcome (keys : list Z) (cmp : option (Z -> Z -> Z)) :
  (keys_heap_ordered cmp keys /\
   init (Keys keys) cmp = Ret (keys_pq keys cmp)) \/
  (~ keys_heap_ordered cmp keys /\
   init (Keys keys) cmp = Raise AssertionError).
Proof.
  rewrite init_keys_eq.
  destruct (assert_is_min_heap_outcome _ (keys_pq_wf keys cmp)) as [[Hv ->]|[Hv ->]].
  - left. split; [now apply keys_pq_valid | reflexivity].
  - right. split; [|reflexivity]. intros H. now apply keys_pq_valid in H.
Qed.

(** X14.  Under the natural order [MinPQ(keys)] succeeds on every
    ascending key list, and the queue it builds is a valid heap. *)
Theorem init_from_sorted_keys (keys : list Z)
  (Hs : StronglySorted Z.le keys) :
  init (Keys keys) None = Ret (keys_pq keys None) /\
  valid_heap (keys_pq keys None).
Proof.
  pose proof (sorted_keys_heap_ordered keys Hs) as Hk.
  apply keys_pq_valid in Hk. split; [|exact Hk].
  rewrite init_keys_eq.
  destruct (assert_is_min_heap_outcome _ (keys_pq_wf keys None))
    as [[_ ->]|[Hno _]]; [reflexivity | contradiction].
Qed.

Lemma init_from_sorted_keys_witness :
  StronglySorted Z.le [1; 2; 3; 4; 5]%Z /\
  init (Keys [1; 2; 3; 4; 5]%Z) None = Ret (keys_pq [1; 2; 3; 4; 5]%Z None) /\
  valid_heap (keys_pq [1; 2; 3; 4; 5]%Z None).
Proof.
  assert (H : StronglySorted Z.le [1; 2; 3; 4; 5]%Z).
  { repeat (constructor; [|repeat constructor; lia]). constructor. }
  split; [exact H|]. exact (init_from_sorted_keys [1; 2; 3; 4; 5]%Z H).
Defined.

(** ** Iteration *)

(** X15.  [next] raises [StopIteration] exactly when the iterator's copy
    is empty, and then leaves the iterator as it is; the underflow
    [ValueError] of [del_min] never escapes from it. *)
Theorem next_signals_exhaustion (it : HeapIterator) :
  (snd (next it) = Raise StopIteration <-> n (copy it) = 0) /\
  (next it = (it, Raise StopIteration) <-> n (copy it) = 0) /\
  snd (next it) <> Raise ValueError.
Proof.
  unfold next, is_empty.
  destruct (Nat.eqb_spec (n (copy it)) 0) as [E|E].
  - repeat split; auto; discriminate.
  - pose proof (del_min_nonempty_only (fun e => e <> StopIteration) (copy it)
                  ltac:(discriminate) ltac:(discriminate) ltac:(discriminate)
                  ltac:(discriminate) E) as H1.
    pose proof (del_min_nonempty_no_underflow (copy it) E) as H2.
    destruct (del_min (copy it)) as [cp r]. cbn [fst snd] in *.
    split; [|split].
    + split; [|contradiction]. intros ->. now contradiction H1.
    + split; [|contradiction]. intros [= _ ->]. now contradiction H1.
    + exact H2.
Qed.

(** X16.  [iter(q)] on a valid heap succeeds, and its copy is a valid
    heap of its own with the same keys in the same slots, the same
    ordering and [n + 1] slots. *)
Theorem iter_copies_valid_heap (p : MinPQ) (Hv : valid_heap p) :
  exists it,
    iter p = Ret it /\
    n (copy it) = n p /\ live (copy it) = live p /\
    comparator (copy it) = comparator p /\
    length (pq (copy it)) = n p + 1 /\
    valid_heap (copy it).
Proof.
  unfold iter.
  set (cp0 := mkPQ (nones (Z.of_nat (size p) + 1)) 0 (comparator p)).
  assert (E0 : match comparator p with
               | None => init (Capacity (Z.of_nat (size p))) None
               | Some c => init (Capacity (Z.of_nat (size p))) (Some c)
               end = Ret cp0).
  { unfold cp0. now destruct (comparator p). }
  rewrite E0. cbn [rbind].
  assert (H0 : snapshot_upto p cp0 1).
  { unfold cp0, nones, size. split; [reflexivity|]. split; [reflexivity|].
    replace (Z.to_nat (Z.of_nat (n p) + 1)) with (n p + 1) by lia.
    split; [cbn [pq]; apply length_replicate|]. intros j. cbn [pq].
    destruct (Nat.leb_spec 1 j), (Nat.leb_spec j (1 - 1)); cbn [andb]; try lia;
      (destruct (Nat.ltb_spec j (n p + 1));
       [ apply lookup_replicate_2; lia
       | apply lookup_ge_None_2; rewrite length_replicate; lia ]). }
  destruct (copy_inserts_spec p Hv (n p) 1 cp0 ltac:(lia) ltac:(lia) H0)
    as (cp' & Ec & Hfull).
  rewrite Ec. exists (mkIter cp'). split; [reflexivity|]. cbn [copy].
  destruct (snapshot_upto_full_live p cp' Hfull) as [Hn Hl].
  pose proof (snapshot_upto_valid p cp' (n p + 1) Hv ltac:(lia) Hfull) as Hval.
  destruct Hfull as (_ & Hc & Hlen & _). auto 6.
Qed.

Lemma iter_copies_valid_heap_witness :
  valid_heap two_of_eight /\
  exists it,
    iter two_of_eight = Ret it /\
    n (copy it) = n two_of_eight /\ live (copy it) = live two_of_eight /\
    comparator (copy it) = comparator two_of_eight /\
    length (pq (copy it)) = n two_of_eight + 1 /\
    valid_heap (copy it).
Proof.
  split; [exact two_of_eight_valid|].
  exact (iter_copies_valid_heap two_of_eight two_of_eight_valid).
Defined.
